(** * Radix tree (compressed prefix tree) over byte strings

    A shallow embedding of the Go package [radix]: the [Node] record, the
    shared matcher [findMatchedNodeMeta], [InsertWord], [Search],
    [GetSuggestions], [Iter] and the batch aggregation
    [GetSuggestionsForSlice].

    Conventions.
    - A Go [string] is an immutable byte sequence: [gostring := list ascii].
    - A Go [int] holding a string index or the sentinel [-1] is a [Z]
      (lengths of strings never come near the 64-bit bound, so no wrap-around
      is written out).
    - A [*Node] reached from the root is a path of child indices; the tree
      owns its nodes hierarchically, so a write through the pointer is
      [store] at that path.
    - A channel fed by one producer and drained by one consumer is the list
      of the values sent, in sending order. *)

From Stdlib Require Import List Ascii String ZArith Lia Bool Arith.
From Stdlib Require Import Permutation Sorted.
Import ListNotations.

Local Open Scope Z_scope.

(** ** Strings *)

Definition gostring := list ascii.

(** Go string literal. *)
Definition lit (s : string) : gostring := list_ascii_of_string s.

(** [len(s)] as a Go [int]. *)
Definition len {A} (l : list A) : Z := Z.of_nat (List.length l).

(** [s[:i]] and [s[i:]] for an index already known to be in range. *)
Definition slice_to (s : gostring) (i : Z) : gostring := firstn (Z.to_nat i) s.
Definition slice_from (s : gostring) (i : Z) : gostring := skipn (Z.to_nat i) s.

Definition gostring_eqb (a b : gostring) : bool :=
  if list_eq_dec ascii_dec a b then true else false.

(** ** Node *)

#[local] Set Warnings "-register-all".

Inductive Node : Type :=
  mkNode (Label : gostring) (Prefix : gostring) (Children : list Node)
         (IsWordBoundary : bool) (IsRootNode : bool).

Definition Label (n : Node) : gostring := let 'mkNode l _ _ _ _ := n in l.
Definition Prefix (n : Node) : gostring := let 'mkNode _ p _ _ _ := n in p.
Definition Children (n : Node) : list Node := let 'mkNode _ _ c _ _ := n in c.
Definition IsWordBoundary (n : Node) : bool := let 'mkNode _ _ _ b _ := n in b.
Definition IsRootNode (n : Node) : bool := let 'mkNode _ _ _ _ r := n in r.

Definition InitNode (label : gostring) : Node :=
  mkNode label [] [] false false.

Definition IsWord (n : Node) : bool := IsWordBoundary n.
Definition IsRoot (n : Node) : bool := IsRootNode n.
Definition IsLeaf (n : Node) : bool := len (Children n) =? 0.

(** Field assignments [n.F = v]. *)
Definition set_Label (v : gostring) (n : Node) : Node :=
  mkNode v (Prefix n) (Children n) (IsWordBoundary n) (IsRootNode n).
Definition set_Prefix (v : gostring) (n : Node) : Node :=
  mkNode (Label n) v (Children n) (IsWordBoundary n) (IsRootNode n).
Definition set_Children (v : list Node) (n : Node) : Node :=
  mkNode (Label n) (Prefix n) v (IsWordBoundary n) (IsRootNode n).
Definition set_IsWordBoundary (v : bool) (n : Node) : Node :=
  mkNode (Label n) (Prefix n) (Children n) v (IsRootNode n).
Definition set_IsRootNode (v : bool) (n : Node) : Node :=
  mkNode (Label n) (Prefix n) (Children n) (IsWordBoundary n) v.

(** ** Tree *)

Record Tree : Type := mkTree { Root : Node }.

Definition InitTree : Tree :=
  let node := InitNode (lit "*") in
  let node := set_IsRootNode true node in
  mkTree node.

(** ** Pointers into the tree *)

Definition ptr := list nat.

Fixpoint deref (n : Node) (p : ptr) : option Node :=
  match p with
  | [] => Some n
  | i :: p' =>
      match nth_error (Children n) i with
      | Some c => deref c p'
      | None => None
      end
  end.

Fixpoint replace_nth {A} (i : nat) (x : A) (l : list A) : list A :=
  match l, i with
  | [], _ => []
  | _ :: l', O => x :: l'
  | y :: l', S i' => y :: replace_nth i' x l'
  end.

(** [store n p v]: the tree [n] after the node that [p] points to has been
    overwritten by [v]. *)
Fixpoint store (n : Node) (p : ptr) (v : Node) : Node :=
  match p with
  | [] => v
  | i :: p' =>
      match nth_error (Children n) i with
      | Some c => set_Children (replace_nth i (store c p' v) (Children n)) n
      | None => n
      end
  end.

(** ** Matcher *)

(** The "runner" loop of [findMatchedNodeMeta]: the final value of
    [matchedIdx], the length of the common leading run of [query] and
    [label].  [matchNotFound] stays [true] exactly when this is [0]. *)
Fixpoint runner (query label : gostring) : nat :=
  match query, label with
  | q :: query', l :: label' =>
      if Ascii.eqb q l then S (runner query' label') else O
  | _, _ => O
  end.

(** What [findMatchedNodeMeta] returns: the matched node (pointer and
    pointee), the match index, the rest of the query and the prefix. *)
Record Meta : Type := mkMeta {
  m_ptr : ptr;
  m_node : Node;
  m_idx : Z;
  m_rest : gostring;
  m_prefix : gostring
}.

(** The result of the recursive call on child [i], returned unchanged: only
    the pointer is now read from the parent. *)
Definition under (i : nat) (m : Meta) : Meta :=
  mkMeta (i :: m_ptr m) (m_node m) (m_idx m) (m_rest m) (m_prefix m).

(** The [for _, childNode := range currentNode.Children] loop sits inside
    the recursion on the node; [i] is the position of [childNode], kept only
    to name the pointer that is returned. *)
Fixpoint findMatchedNodeMeta (query prefix : gostring) (currentNode : Node)
  {struct currentNode} : Meta :=
  match currentNode with
  | mkNode _ _ children _ _ =>
      (fix scan (i : nat) (cs : list Node) {struct cs} : Meta :=
         match cs with
         | [] => mkMeta [] currentNode (-1) query prefix
         | childNode :: cs' =>
             let matchedIdx := runner query (Label childNode) in
             let matchNotFound := Nat.eqb matchedIdx O in
             if matchNotFound then scan (S i) cs'
             else if Nat.eqb matchedIdx (List.length (Label childNode)) then
               under i (findMatchedNodeMeta (skipn matchedIdx query)
                          (prefix ++ firstn matchedIdx query) childNode)
             else mkMeta [i] childNode (Z.of_nat matchedIdx) query prefix
         end) O children
  end.

(** The same loop, named, started at child [i] on the remaining children. *)
Definition scan_children (query prefix : gostring) (currentNode : Node)
  : nat -> list Node -> Meta :=
  fix scan (i : nat) (cs : list Node) {struct cs} : Meta :=
    match cs with
    | [] => mkMeta [] currentNode (-1) query prefix
    | childNode :: cs' =>
        let matchedIdx := runner query (Label childNode) in
        let matchNotFound := Nat.eqb matchedIdx O in
        if matchNotFound then scan (S i) cs'
        else if Nat.eqb matchedIdx (List.length (Label childNode)) then
          under i (findMatchedNodeMeta (skipn matchedIdx query)
                     (prefix ++ firstn matchedIdx query) childNode)
        else mkMeta [i] childNode (Z.of_nat matchedIdx) query prefix
    end.

(** ** Inserter *)

Definition InsertWord (t : Tree) (word : gostring) : Tree :=
  let m := findMatchedNodeMeta word [] (Root t) in
  let matchedNode := m_node m in
  let matchedIdx := m_idx m in
  let restWord := m_rest m in
  let prefix := m_prefix m in
  if matchedIdx =? -1 then
    if len restWord =? 0 then t
    else
      let newNode := InitNode restWord in
      let newNode := set_IsWordBoundary true newNode in
      let matchedNode := set_Prefix prefix matchedNode in
      let matchedNode :=
        set_Children (Children matchedNode ++ [newNode]) matchedNode in
      mkTree (store (Root t) (m_ptr m) matchedNode)
  else
    let cachedIsWord := IsWord matchedNode in
    let cachedLabel := Label matchedNode in
    let matchedNode := set_Label (slice_to restWord matchedIdx) matchedNode in
    let matchedNode := set_Prefix (slice_to restWord matchedIdx) matchedNode in
    let matchedNode := set_IsWordBoundary false matchedNode in
    let restLabelNode := InitNode (slice_from cachedLabel matchedIdx) in
    let restLabelNode := set_Prefix cachedLabel restLabelNode in
    let restLabelNode := set_IsWordBoundary cachedIsWord restLabelNode in
    let restLabelNode := set_Children (Children matchedNode) restLabelNode in
    let matchedNode := set_Children [restLabelNode] matchedNode in
    let matchedNode :=
      if negb (gostring_eqb (slice_from restWord matchedIdx) []) then
        let restWordNode := InitNode (slice_from restWord matchedIdx) in
        let restWordNode := set_IsWordBoundary true restWordNode in
        set_Children (Children matchedNode ++ [restWordNode]) matchedNode
      else matchedNode in
    mkTree (store (Root t) (m_ptr m) matchedNode).

Definition InsertWords (t : Tree) (words : list gostring) : Tree :=
  fold_left InsertWord words t.

(** ** Loading from a dictionary *)

(** A Go [error] value; [nil] is [None]. *)
Definition error := option string.

(** The interface [Dictionary]. *)
Class Dictionary (D : Type) : Type := {
  GetWords : D -> list gostring * error
}.

(** [log.Fatal(err)] ends the process: no tree is returned, and the error is
    what remains. *)
Definition InitTreeFromDict {D : Type} `{Dictionary D} (dict : D)
  : string + Tree :=
  let '(words, err) := GetWords dict in
  match err with
  | Some e => inl e
  | None =>
      let tree := InitTree in
      inr (fold_left InsertWord words tree)
  end.

(** ** Querier *)

Definition Search (t : Tree) (query : gostring) : bool :=
  let m := findMatchedNodeMeta query [] (Root t) in
  (len (m_rest m) =? 0) && IsWord (m_node m).

(** [iter]: the strings sent on [out], in sending order. *)
Fixpoint iter (node : Node) (currentWord : gostring) {struct node}
  : list gostring :=
  match node with
  | mkNode _ _ children isWord _ =>
      (if isWord then [currentWord] else []) ++
      (fix each (cs : list Node) {struct cs} : list gostring :=
         match cs with
         | [] => []
         | child :: cs' => iter child (currentWord ++ Label child) ++ each cs'
         end) children
  end.

Definition Iter (t : Tree) : list gostring := iter (Root t) [].

(** [findMatchedNodeMeta] never returns a nil node, so the test
    [matchedNode == nil] is always false and is left out. *)
Definition GetSuggestions (t : Tree) (query : gostring) : list gostring :=
  let m := findMatchedNodeMeta query [] (Root t) in
  let matchedNode := m_node m in
  let matchedIdx := m_idx m in
  let restQuery := m_rest m in
  let prefix := m_prefix m in
  if (matchedIdx <? len restQuery) && (len restQuery >? 0) then []
  else
    let prefix :=
      if (matchedIdx >? 0) && (matchedIdx <? len (Label matchedNode))
         && (matchedIdx =? len restQuery) && (len restQuery >? 0) then
        if IsLeaf matchedNode then prefix ++ Label matchedNode
        else Prefix matchedNode
      else prefix in
    iter matchedNode prefix.


(** ** Aggregator *)

(** [sort.Strings] orders strings bytewise. *)
Fixpoint string_leb (a b : gostring) : bool :=
  match a, b with
  | [], _ => true
  | _ :: _, [] => false
  | x :: a', y :: b' =>
      if (N_of_ascii x <? N_of_ascii y)%N then true
      else if (N_of_ascii x =? N_of_ascii y)%N then string_leb a' b'
      else false
  end.

Fixpoint insert_sorted (x : gostring) (l : list gostring) : list gostring :=
  match l with
  | [] => [x]
  | y :: l' => if string_leb x y then x :: l else y :: insert_sorted x l'
  end.

(** [sort.Strings] is library code; it is taken by its contract, the
    ascending rearrangement of its argument, computed here by insertion. *)
Definition sort_Strings (l : list gostring) : list gostring :=
  fold_right insert_sorted [] l.

(** [suggestionsMap], a [map[string]bool] in which only [true] is ever
    stored: the keys present. *)
Definition stringset := list gostring.

Definition lookup (m : stringset) (k : gostring) : bool :=
  existsb (gostring_eqb k) m.

(** [if ok := suggestionsMap[match]; !ok { suggestionsMap[match] = true }] *)
Definition record_match (m : stringset) (k : gostring) : stringset :=
  if lookup m k then m else k :: m.

(** The loop [for matches := range ch].  [ch] lists what the goroutines
    send, in the order the sends complete.  The channel is closed only after
    the loop, so once every send has been received and the loop has not
    reached its [break], the receive blocks for ever: [None]. *)
Fixpoint receive (ch : list (list gostring)) (queriesLeft : Z)
  (suggestionsMap : stringset) : option stringset :=
  match ch with
  | [] => None
  | matches :: ch' =>
      let queriesLeft := queriesLeft - 1 in
      let suggestionsMap := fold_left record_match matches suggestionsMap in
      if queriesLeft =? 0 then Some suggestionsMap
      else receive ch' queriesLeft suggestionsMap
  end.

(** One run of [GetSuggestionsForSlice]: [completion] is the order in which
    the goroutines' sends complete, [ranging] the order in which
    [for suggestion := range suggestionsMap] visits the keys (Go leaves it
    unspecified). *)
Definition GetSuggestionsForSlice_run (queries : list gostring)
  (completion : list (list gostring))
  (ranging : stringset -> list gostring) : option (list gostring) :=
  let queriesLeft := len queries in
  match receive completion queriesLeft [] with
  | None => None
  | Some suggestionsMap =>
      let results := ranging suggestionsMap in
      Some (sort_Strings results)
  end.

(** The run in which the sends complete in spawning order and the map is
    visited in storing order. *)
Definition GetSuggestionsForSlice (t : Tree) (queries : list gostring)
  : option (list gostring) :=
  GetSuggestionsForSlice_run queries (map (GetSuggestions t) queries)
                             (fun m => m).

(* ================================================================== *)
(** * Specification predicates *)

(** ** The matcher as a walk *)

Definition misses (q : gostring) (cs : list Node) : Prop :=
  Forall (fun c => runner q (Label c) = O) cs.

(** The three outcomes of the matcher: (c) dead end at the current node,
    (b) partial match inside a child's label, (a) full match of a child's
    label, continued below it. *)
Inductive Walk : Node -> gostring -> gostring -> Meta -> Prop :=
| Walk_dead n q p :
    misses q (Children n) ->
    Walk n q p (mkMeta [] n (-1) q p)
| Walk_partial n q p pre c post :
    Children n = pre ++ c :: post ->
    misses q pre ->
    (0 < runner q (Label c))%nat ->
    (runner q (Label c) < List.length (Label c))%nat ->
    Walk n q p (mkMeta [List.length pre] c (Z.of_nat (runner q (Label c))) q p)
| Walk_full n q p pre c post m :
    Children n = pre ++ c :: post ->
    misses q pre ->
    (0 < runner q (Label c))%nat ->
    runner q (Label c) = List.length (Label c) ->
    Walk c (skipn (runner q (Label c)) q)
         (p ++ firstn (runner q (Label c)) q) m ->
    Walk n q p (under (List.length pre) m).

(** A result found below the node that [pth] points to, seen from above. *)
Definition prepend (pth : ptr) (m : Meta) : Meta :=
  mkMeta (pth ++ m_ptr m) (m_node m) (m_idx m) (m_rest m) (m_prefix m).

(** ** The two writes of [InsertWord] *)

(** The matched node after the no-match branch: prefix cached, a fresh
    word-boundary leaf labelled [rest] appended. *)
Definition with_leaf (N : Node) (prefix rest : gostring) : Node :=
  mkNode (Label N) prefix
         (Children N ++ [mkNode rest [] [] true false])
         (IsWordBoundary N) (IsRootNode N).

(** The matched node after the split branch at index [k]. *)
Definition split_at (N : Node) (k : nat) (rest : gostring) : Node :=
  mkNode (firstn k rest) (firstn k rest)
         (mkNode (skipn k (Label N)) (Label N) (Children N)
                 (IsWordBoundary N) false
          :: match skipn k rest with
             | [] => []
             | _ :: _ => [mkNode (skipn k rest) [] [] true false]
             end)
         false (IsRootNode N).

(** ** Predicates over every node of a tree *)

Fixpoint every_node (P : Node -> Prop) (n : Node) {struct n} : Prop :=
  match n with
  | mkNode _ _ cs _ _ =>
      P n /\
      (fix all (cs : list Node) : Prop :=
         match cs with
         | [] => True
         | c :: cs' => every_node P c /\ all cs'
         end) cs
  end.

Definition head (c : Node) : option ascii := hd_error (Label c).

(** Two labels share their leading character. *)
Definition share_leading (a b : gostring) : Prop :=
  exists x a' b', a = x :: a' /\ b = x :: b'.

(** Sibling labels are non-empty and pairwise differ in their leading
    character. *)
Definition siblings_disjoint (cs : list Node) : Prop :=
  Forall (fun c => Label c <> []) cs /\
  forall i j ci cj,
    i <> j -> nth_error cs i = Some ci -> nth_error cs j = Some cj ->
    ~ share_leading (Label ci) (Label cj).

(** The form used in the proofs. *)
Definition heads_distinct (n : Node) : Prop :=
  Forall (fun c => Label c <> []) (Children n) /\
  NoDup (map head (Children n)).

(** ** Paths and stored words *)

(** The concatenation of the labels met from [n] (excluded) down to the node
    that [p] points to (included). *)
Fixpoint labels_along (n : Node) (p : ptr) : option gostring :=
  match p with
  | [] => Some []
  | i :: p' =>
      match nth_error (Children n) i with
      | Some c => option_map (app (Label c)) (labels_along c p')
      | None => None
      end
  end.

(** Every node at or below [n], in depth-first order with children in
    stored order, paired with the concatenation of labels leading to it. *)
Fixpoint nodes_dfs (n : Node) (path : gostring) {struct n}
  : list (gostring * Node) :=
  match n with
  | mkNode _ _ cs _ _ =>
      (path, n) :: flat_map (fun c => nodes_dfs c (path ++ Label c)) cs
  end.

(** Following the spec's words: the stored words are the root-to-node label
    concatenations of the word-boundary nodes. *)
Definition stored_words (t : Tree) : list gostring :=
  map fst (filter (fun pn => IsWordBoundary (snd pn)) (nodes_dfs (Root t) [])).

(** ** Batch aggregation *)

Definition string_le (a b : gostring) : Prop := string_leb a b = true.

(** Following the spec's words: a list is the deduplicated, sorted union of
    the suggestions for the queries [Q]. *)
Definition is_sorted_dedup_union (t : Tree) (Q : list gostring)
  (r : list gostring) : Prop :=
  StronglySorted string_le r /\
  NoDup r /\
  forall x, In x r <-> exists q, In q Q /\ In x (GetSuggestions t q).

(** A possible run: the sends complete in some order, the map is visited in
    some order. *)
Definition possible_run (t : Tree) (queries : list gostring)
  (completion : list (list gostring))
  (ranging : stringset -> list gostring) : Prop :=
  Permutation completion (map (GetSuggestions t) queries) /\
  forall m, Permutation (ranging m) m.

(** ** When [InsertWord] adds a word-boundary node *)

(** [InsertWord] creates a node marked as a word boundary in two places: the
    leaf of the no-match branch, and the second child of a split.  Both are
    guarded by a non-empty rest of the word. *)
Definition adds_leaf (t : Tree) (word : gostring) : bool :=
  let m := findMatchedNodeMeta word [] (Root t) in
  if m_idx m =? -1 then negb (len (m_rest m) =? 0)
  else negb (gostring_eqb (slice_from (m_rest m) (m_idx m)) []).

(** ** Where the cached prefix is used *)

(** [GetSuggestions] reads [matchedNode.Prefix] in one situation only: the
    query is used up inside the label of a node that has children. *)
Definition ends_inside_branch (t : Tree) (query : gostring) : bool :=
  let m := findMatchedNodeMeta query [] (Root t) in
  (m_idx m >? 0) && (m_idx m =? len (m_rest m)) && negb (IsLeaf (m_node m)).

(** ** Prefixes, leaves and insertion orders *)

(** [a] is a leading part of [b]. *)
Definition is_prefix (a b : gostring) : Prop := exists s, b = a ++ s.

(** A predicate on the children of every node. *)
Definition children_all (R : Node -> Prop) (n : Node) : Prop :=
  Forall R (Children n).

(** A node without children marks the end of a word. *)
Definition leaf_marked (c : Node) : Prop :=
  Children c = [] -> IsWordBoundary c = true.

Definition not_root (c : Node) : Prop := IsRootNode c = false.

(** No word is empty, and no word is a leading part of a different word
    that comes before it. *)
Definition no_prefix_of_earlier (ws : list gostring) : Prop :=
  forall pre w post,
    ws = pre ++ w :: post ->
    w <> [] /\ forall x, In x pre -> is_prefix w x -> x = w.

(** The same, decided. *)
Fixpoint is_prefixb (a b : gostring) : bool :=
  match a, b with
  | [], _ => true
  | _ :: _, [] => false
  | x :: a', y :: b' => Ascii.eqb x y && is_prefixb a' b'
  end.

(** [w] may come after the words [seen]: it is not empty and begins none of
    them but itself. *)
Definition may_follow (seen : list gostring) (w : gostring) : bool :=
  negb (gostring_eqb w []) &&
  forallb (fun x => negb (is_prefixb w x) || gostring_eqb x w) seen.

Fixpoint no_prefix_of_earlierb (seen ws : list gostring) : bool :=
  match ws with
  | [] => true
  | w :: ws' => may_follow seen w && no_prefix_of_earlierb (w :: seen) ws'
  end.

(** A node with children caches its own label as prefix. *)
Definition caches_label (c : Node) : Prop :=
  Children c <> [] -> Prefix c = Label c.

(** The bytes of the labels below a node; [weight] counts the node's own
    label too. *)
Fixpoint label_bytes (n : Node) {struct n} : nat :=
  match n with
  | mkNode _ _ cs _ _ =>
      list_sum (map (fun c => (List.length (Label c) + label_bytes c)%nat) cs)
  end.

Definition weight (c : Node) : nat :=
  (List.length (Label c) + label_bytes c)%nat.

(** The path down to the matched node is what the node caches. *)
Definition cached_prefix_right (t : Tree) (query : gostring) : Prop :=
  let m := findMatchedNodeMeta query [] (Root t) in
  Prefix (m_node m) = m_prefix m ++ Label (m_node m).

(** A dictionary that hands out a fixed list of words, or fails. *)
Inductive FixedDictionary : Type :=
| Words (ws : list gostring)
| Unreadable (e : string).

#[export] Instance FixedDictionary_Dictionary : Dictionary FixedDictionary := {
  GetWords d :=
    match d with
    | Words ws => (ws, None)
    | Unreadable e => ([], Some e)
    end
}.

(** ** Scenarios *)

Definition tree_tester_test : Tree :=
  InsertWords InitTree [lit "tester"; lit "test"].
Definition tree_test_team_te : Tree :=
  InsertWords InitTree [lit "test"; lit "team"; lit "te"].
Definition tree_testabc_testabd : Tree :=
  InsertWords InitTree [lit "test"; lit "testabc"; lit "testabd"].

(* ================================================================== *)
(** * Properties *)

(** ** Induction on nodes *)

Lemma Node_nested_ind (P : Node -> Prop) :
  (forall l p cs b r, Forall P cs -> P (mkNode l p cs b r)) ->
  forall n, P n.
Proof.
  intros step.
  fix IH 1.
  intros [l p cs b r].
  apply step.
  induction cs as [|c cs IHcs]; constructor.
  - apply IH.
  - exact IHcs.
Qed.

Lemma node_eta (n : Node) :
  n = mkNode (Label n) (Prefix n) (Children n) (IsWordBoundary n) (IsRootNode n).
Proof. destruct n; reflexivity. Qed.

(** ** The runner *)

Lemma runner_le_query q l : (runner q l <= List.length q)%nat.
Proof.
  revert l; induction q as [|a q IH]; intros [|b l]; simpl; try lia.
  destruct (Ascii.eqb a b); [specialize (IH l)|]; lia.
Qed.

Lemma runner_le_label q l : (runner q l <= List.length l)%nat.
Proof.
  revert l; induction q as [|a q IH]; intros [|b l]; simpl; try lia.
  destruct (Ascii.eqb a b); [specialize (IH l)|]; lia.
Qed.

Lemma runner_nil_l l : runner [] l = O.
Proof. reflexivity. Qed.

Lemma runner_nil_r q : runner q [] = O.
Proof. destruct q; reflexivity. Qed.

Lemma runner_refl q : runner q q = List.length q.
Proof.
  induction q as [|a q IH]; simpl; [reflexivity|].
  rewrite Ascii.eqb_refl, IH; reflexivity.
Qed.

(** The matched run is a common prefix. *)
Lemma runner_firstn q l :
  firstn (runner q l) q = firstn (runner q l) l.
Proof.
  revert l; induction q as [|a q IH]; intros [|b l]; simpl; try reflexivity.
  destruct (Ascii.eqb_spec a b) as [->|]; simpl; [|reflexivity].
  now rewrite IH.
Qed.

(** Matching the query against its own matched run consumes that run. *)
Lemma runner_own_prefix q k :
  (k <= List.length q)%nat -> runner q (firstn k q) = k.
Proof.
  revert k; induction q as [|a q IH]; intros [|k] Hk; simpl in *;
    try reflexivity; try lia.
  rewrite Ascii.eqb_refl, IH by lia; reflexivity.
Qed.

(** Where the run stops inside both strings, the next bytes differ, so the
    two tails have no common run. *)
Lemma runner_tails q l :
  runner (skipn (runner q l) q) (skipn (runner q l) l) = O.
Proof.
  revert l; induction q as [|a q IH]; intros [|b l]; simpl; try reflexivity.
  destruct (Ascii.eqb a b) eqn:E; simpl; [apply IH|].
  now rewrite E.
Qed.

Lemma runner_pos_hd q l :
  (0 < runner q l)%nat -> hd_error q = hd_error l /\ q <> [] /\ l <> [].
Proof.
  destruct q as [|a q], l as [|b l]; simpl; try lia.
  destruct (Ascii.eqb_spec a b) as [->|]; [|lia].
  intros _; repeat split; discriminate.
Qed.

Lemma runner_zero_hd q l :
  runner q l = O -> q <> [] -> l <> [] -> hd_error q <> hd_error l.
Proof.
  destruct q as [|a q], l as [|b l]; simpl; try congruence.
  destruct (Ascii.eqb_spec a b) as [->|]; [discriminate|].
  intros _ _ _ [=]; contradiction.
Qed.

(** ** The matcher as a walk *)

Lemma find_scan q p n :
  findMatchedNodeMeta q p n = scan_children q p n O (Children n).
Proof. destruct n; reflexivity. Qed.


Lemma scan_skip q p n pre cs i :
  misses q pre ->
  scan_children q p n i (pre ++ cs) =
  scan_children q p n (i + List.length pre)%nat cs.
Proof.
  intros H; revert i; induction H as [|c pre Hc _ IH]; intros i; simpl.
  - now rewrite Nat.add_0_r.
  - rewrite Hc; simpl. rewrite IH. f_equal; lia.
Qed.

Lemma scan_Walk q p n :
  forall cs pre,
    Children n = pre ++ cs ->
    misses q pre ->
    Forall (fun c => forall q p, Walk c q p (findMatchedNodeMeta q p c)) cs ->
    Walk n q p (scan_children q p n (List.length pre) cs).
Proof.
  induction cs as [|c cs IH]; intros pre Hn Hpre Hcs; simpl.
  - apply Walk_dead. rewrite Hn, app_nil_r. exact Hpre.
  - inversion Hcs as [|? ? Hc Hcs']; subst.
    destruct (Nat.eqb_spec (runner q (Label c)) O) as [E0|E0].
    + replace (S (List.length pre)) with (List.length (pre ++ [c]))
        by (rewrite length_app; simpl; lia).
      apply IH; [now rewrite <- app_assoc | | exact Hcs'].
      apply Forall_app; split; [exact Hpre | now constructor].
    + destruct (Nat.eqb_spec (runner q (Label c)) (List.length (Label c)))
        as [E1|E1].
      * eapply Walk_full; eauto; lia.
      * eapply Walk_partial; eauto; [lia|].
        pose proof (runner_le_label q (Label c)); lia.
Qed.

(** The matcher always ends in one of the three outcomes. *)
Lemma find_Walk n : forall q p, Walk n q p (findMatchedNodeMeta q p n).
Proof.
  induction n as [l pf cs b r IH] using Node_nested_ind; intros q p.
  rewrite find_scan.
  apply (scan_Walk q p (mkNode l pf cs b r) cs []); simpl; auto.
  constructor.
Qed.

(** ... and the outcome is what the code computes. *)
Lemma Walk_find n q p m : Walk n q p m -> m = findMatchedNodeMeta q p n.
Proof.
  induction 1 as [n q p H | n q p pre c post Hn Hpre H0 H1
                 | n q p pre c post m Hn Hpre H0 H1 _ IH];
    rewrite find_scan.
  - rewrite <- (app_nil_r (Children n)), scan_skip by exact H. reflexivity.
  - rewrite Hn, scan_skip by exact Hpre. simpl.
    destruct (Nat.eqb_spec (runner q (Label c)) O); [lia|].
    destruct (Nat.eqb_spec (runner q (Label c)) (List.length (Label c)));
      [lia|reflexivity].
  - rewrite Hn, scan_skip by exact Hpre. simpl.
    destruct (Nat.eqb_spec (runner q (Label c)) O); [lia|].
    destruct (Nat.eqb_spec (runner q (Label c)) (List.length (Label c)));
      [|lia].
    now rewrite IH.
Qed.

(** ** What a walk tells about its result *)

Lemma Walk_deref n q p m : Walk n q p m -> deref n (m_ptr m) = Some (m_node m).
Proof.
  induction 1 as [| n q p pre c post Hn | n q p pre c post m Hn _ _ _ _ IH];
    simpl; try reflexivity.
  - rewrite Hn, nth_error_app2, Nat.sub_diag by lia. reflexivity.
  - rewrite Hn, nth_error_app2, Nat.sub_diag by lia. exact IH.
Qed.

Lemma Walk_outcome n q p m :
  Walk n q p m ->
  (m_idx m = -1 /\ misses (m_rest m) (Children (m_node m))) \/
  (m_ptr m <> [] /\
   m_idx m = Z.of_nat (runner (m_rest m) (Label (m_node m))) /\
   (0 < runner (m_rest m) (Label (m_node m)) < List.length (Label (m_node m)))%nat).
Proof.
  induction 1 as [| | n q p pre c post m _ _ _ _ _ IH]; simpl.
  - left; auto.
  - right; repeat split; auto; discriminate.
  - destruct IH as [IH | (IH1 & IH2)]; [left; exact IH | right].
    split; [discriminate | exact IH2].
Qed.

(** The single place where the body of [InsertWord] is unfolded. *)
Lemma InsertWord_cases t w :
  let m := findMatchedNodeMeta w [] (Root t) in
  (m_idx m = -1 /\ m_rest m = [] /\ InsertWord t w = t) \/
  (m_idx m = -1 /\ m_rest m <> [] /\
   misses (m_rest m) (Children (m_node m)) /\
   InsertWord t w =
     mkTree (store (Root t) (m_ptr m)
                   (with_leaf (m_node m) (m_prefix m) (m_rest m)))) \/
  (m_ptr m <> [] /\
   m_idx m = Z.of_nat (runner (m_rest m) (Label (m_node m))) /\
   (0 < runner (m_rest m) (Label (m_node m)) < List.length (Label (m_node m)))%nat /\
   InsertWord t w =
     mkTree (store (Root t) (m_ptr m)
                   (split_at (m_node m) (runner (m_rest m) (Label (m_node m)))
                             (m_rest m)))).
Proof.
  intros m.
  destruct (Walk_outcome _ _ _ _ (find_Walk (Root t) w [])) as [[Hi Hm]|(Hp & Hi & Hk)];
    fold m in Hi, Hm || fold m in Hp, Hi, Hk.
  - destruct (m_rest m) as [|a rest] eqn:Hr.
    + left. repeat split; auto.
      unfold InsertWord. fold m. rewrite Hi, Hr. reflexivity.
    + right; left. repeat split; auto; try discriminate.
      unfold InsertWord. fold m. rewrite Hi, Hr. reflexivity.
  - right; right. repeat split; try tauto.
    unfold InsertWord. fold m. rewrite Hi.
    destruct (Z.eqb_spec (Z.of_nat (runner (m_rest m) (Label (m_node m)))) (-1));
      [lia|].
    unfold slice_to, slice_from. rewrite Nat2Z.id.
    unfold split_at, gostring_eqb.
    destruct (skipn _ (m_rest m)) eqn:Hs; simpl; rewrite ?Hs; reflexivity.
Qed.

(** ** Every node: unfolding, pointers, stores *)

Lemma every_node_unfold P n :
  every_node P n <-> P n /\ Forall (every_node P) (Children n).
Proof.
  destruct n as [l p cs b r]; simpl.
  assert (E : forall cs : list Node,
             (fix all (cs : list Node) : Prop :=
                match cs with
                | [] => True
                | c :: cs' => every_node P c /\ all cs'
                end) cs <-> Forall (every_node P) cs).
  { induction cs0 as [|c cs0 IH]; split; intros H.
    - constructor.
    - exact I.
    - destruct H; constructor; [assumption | now apply IH].
    - inversion H; subst; split; [assumption | now apply IH]. }
  rewrite E. reflexivity.
Qed.

Lemma every_node_deref P p : forall n c,
  every_node P n -> deref n p = Some c -> every_node P c.
Proof.
  induction p as [|i p IH]; intros n c Hn Hd; simpl in Hd.
  - now inversion Hd; subst.
  - destruct (nth_error (Children n) i) as [c0|] eqn:E; [|discriminate].
    apply every_node_unfold in Hn. destruct Hn as [_ Hn].
    rewrite Forall_forall in Hn.
    eapply IH; [apply Hn; eapply nth_error_In; exact E | exact Hd].
Qed.

Lemma every_node_here P n : every_node P n -> P n.
Proof. intros H; apply every_node_unfold in H; tauto. Qed.

Lemma replace_nth_spec {A} (x : A) pre c post :
  replace_nth (List.length pre) x (pre ++ c :: post) = pre ++ x :: post.
Proof. induction pre as [|y pre IH]; simpl; [reflexivity | now rewrite IH]. Qed.

Lemma nth_error_split_len {A} (l : list A) i c :
  nth_error l i = Some c ->
  exists pre post, l = pre ++ c :: post /\ List.length pre = i.
Proof.
  intros H. destruct (nth_error_split l i H) as (pre & post & -> & <-).
  now exists pre, post.
Qed.

Lemma store_cons n i p v pre c post :
  Children n = pre ++ c :: post -> List.length pre = i ->
  store n (i :: p) v = set_Children (pre ++ store c p v :: post) n.
Proof.
  intros Hn <-. simpl.
  rewrite Hn, nth_error_app2, Nat.sub_diag by lia. simpl.
  now rewrite replace_nth_spec.
Qed.

Lemma store_Label n p v : p <> [] -> Label (store n p v) = Label n.
Proof.
  destruct p as [|i p]; [congruence|]. intros _. simpl.
  destruct (nth_error (Children n) i); destruct n; reflexivity.
Qed.

Lemma store_IsWordBoundary n p v :
  p <> [] -> IsWordBoundary (store n p v) = IsWordBoundary n.
Proof.
  destruct p as [|i p]; [congruence|]. intros _. simpl.
  destruct (nth_error (Children n) i); destruct n; reflexivity.
Qed.

(** ** Sibling disjointness *)

Lemma heads_distinct_siblings n :
  heads_distinct n -> siblings_disjoint (Children n).
Proof.
  intros [Hne Hnd]; split; [exact Hne|].
  intros i j ci cj Hij Hi Hj (x & a' & b' & Ha & Hb).
  apply Hij.
  apply (proj1 (NoDup_nth_error (map head (Children n))) Hnd).
  - rewrite length_map. apply nth_error_Some. congruence.
  - rewrite !nth_error_map, Hi, Hj. simpl. unfold head. now rewrite Ha, Hb.
Qed.

(** Overwriting a node keeps the invariant when the new node satisfies it
    and, below the root, keeps a non-empty label with the old leading
    character. *)
Lemma store_heads_distinct p : forall n old v,
  every_node heads_distinct n ->
  deref n p = Some old ->
  every_node heads_distinct v ->
  (p <> [] -> head v = head old) ->
  every_node heads_distinct (store n p v).
Proof.
  induction p as [|i p IH]; intros n old v Hn Hd Hv Hhd; [exact Hv|].
  simpl in Hd.
  destruct (nth_error (Children n) i) as [c|] eqn:E; [|discriminate].
  destruct (nth_error_split_len _ _ _ E) as (pre & post & Hcs & Hlen).
  rewrite (store_cons n i p v pre c post Hcs Hlen).
  apply every_node_unfold in Hn. destruct Hn as [[Hne Hnd] Hall].
  rewrite Hcs in Hne, Hnd, Hall.
  assert (Hc : every_node heads_distinct c).
  { rewrite Forall_forall in Hall. apply Hall. apply in_elt. }
  assert (Hc' : every_node heads_distinct (store c p v)).
  { eapply IH; eauto. intros Hp. apply Hhd. discriminate. }
  assert (Hlab : head (store c p v) = head c /\ Label (store c p v) <> []).
  { assert (Hcl : Label c <> []).
    { rewrite Forall_forall in Hne. apply Hne. apply in_elt. }
    assert (Hh : head (store c p v) = head c).
    { destruct p as [|j p].
      - simpl in *. inversion Hd; subst. apply Hhd. discriminate.
      - unfold head. now rewrite store_Label by discriminate. }
    split; [exact Hh|]. unfold head in Hh.
    destruct (Label c); [congruence|].
    destruct (Label (store c p v)); discriminate. }
  destruct Hlab as [Hh Hl].
  apply every_node_unfold. destruct n as [l pf cs b r]; simpl in *.
  unfold heads_distinct; simpl.
  repeat split.
  - apply Forall_app in Hne. destruct Hne as [H1 H2].
    inversion H2; subst. apply Forall_app; split; [assumption|].
    constructor; assumption.
  - rewrite map_app in *. simpl in *. now rewrite Hh.
  - apply Forall_app in Hall. destruct Hall as [H1 H2].
    inversion H2; subst. apply Forall_app; split; [assumption|].
    constructor; assumption.
Qed.

Lemma misses_fresh_head q cs :
  misses q cs -> q <> [] -> Forall (fun c => Label c <> []) cs ->
  ~ In (hd_error q) (map head cs).
Proof.
  intros Hm Hq Hne Hin.
  apply in_map_iff in Hin. destruct Hin as (c & Hc & Hin).
  unfold misses in Hm. rewrite Forall_forall in Hm, Hne.
  apply (runner_zero_hd q (Label c)); auto.
Qed.

Lemma with_leaf_heads_distinct N prefix rest :
  every_node heads_distinct N ->
  misses rest (Children N) -> rest <> [] ->
  every_node heads_distinct (with_leaf N prefix rest).
Proof.
  intros HN Hm Hr.
  apply every_node_unfold in HN. destruct HN as [[Hne Hnd] Hall].
  apply every_node_unfold. unfold with_leaf.
  split; [split|]; cbn [Children Label].
  - apply Forall_app; split; [exact Hne|]. constructor; [exact Hr|constructor].
  - rewrite map_app. simpl.
    apply NoDup_app; [exact Hnd | repeat constructor; auto |].
    intros h Hin [<-|[]].
    now apply (misses_fresh_head rest (Children N)).
  - apply Forall_app; split; [exact Hall|].
    constructor; [|constructor].
    apply every_node_unfold; cbn [Children]. split; [split|]; constructor.
Qed.

Lemma skipn_not_nil {A} k (l : list A) : (k < List.length l)%nat -> skipn k l <> [].
Proof.
  intros Hk E. apply (f_equal (@List.length A)) in E.
  rewrite length_skipn in E. simpl in E. lia.
Qed.

Lemma split_at_heads_distinct N rest :
  every_node heads_distinct N ->
  (0 < runner rest (Label N) < List.length (Label N))%nat ->
  every_node heads_distinct (split_at N (runner rest (Label N)) rest).
Proof.
  intros HN Hk.
  apply every_node_unfold in HN. destruct HN as [[Hne Hnd] Hall].
  set (k := runner rest (Label N)) in *.
  assert (Hold : every_node heads_distinct
                   (mkNode (skipn k (Label N)) (Label N) (Children N)
                           (IsWordBoundary N) false)).
  { apply every_node_unfold; cbn [Children]. split; [split|]; assumption. }
  assert (Hl : skipn k (Label N) <> []) by (apply skipn_not_nil; lia).
  assert (Hleaf : forall l, every_node heads_distinct (mkNode l [] [] true false)).
  { intros l. apply every_node_unfold; cbn [Children].
    split; [split|]; constructor. }
  apply every_node_unfold. unfold split_at. cbn [Children].
  destruct (skipn k rest) as [|a tl] eqn:Hs.
  - split; [split|]; cbn [Children map].
    + constructor; [exact Hl | constructor].
    + constructor; [intros [] | constructor].
    + constructor; [exact Hold | constructor].
  - assert (Hz : runner (a :: tl) (skipn k (Label N)) = O).
    { rewrite <- Hs. apply runner_tails. }
    split; [split|]; cbn [Children map].
    + constructor; [exact Hl |]. constructor; [discriminate | constructor].
    + constructor; [| constructor; [intros [] | constructor]].
      intros [E|[]]. unfold head in E; cbn [Label] in E.
      apply (runner_zero_hd (a :: tl) (skipn k (Label N))); auto; discriminate.
    + constructor; [exact Hold |]. constructor; [apply Hleaf | constructor].
Qed.

Lemma split_at_head N rest :
  (0 < runner rest (Label N))%nat ->
  head (split_at N (runner rest (Label N)) rest) = head N.
Proof.
  intros Hk. unfold head, split_at; simpl.
  destruct (runner_pos_hd _ _ Hk) as (Hh & Hq & Hl).
  destruct rest as [|a rest]; [congruence|].
  destruct (runner (a :: rest) (Label N)) as [|k] eqn:E; [lia|].
  simpl in *. exact Hh.
Qed.

Lemma InsertWord_heads_distinct t w :
  every_node heads_distinct (Root t) ->
  every_node heads_distinct (Root (InsertWord t w)).
Proof.
  intros Ht.
  pose proof (find_Walk (Root t) w []) as HW.
  pose proof (Walk_deref _ _ _ _ HW) as Hd.
  pose proof (every_node_deref _ _ _ _ Ht Hd) as HN.
  destruct (InsertWord_cases t w)
    as [(_ & _ & ->) | [(_ & Hr & Hm & ->) | (Hp & _ & Hk & ->)]];
    [exact Ht | |]; simpl.
  - apply (store_heads_distinct _ _ _ _ Ht Hd).
    + now apply with_leaf_heads_distinct.
    + reflexivity.
  - apply (store_heads_distinct _ _ _ _ Ht Hd).
    + apply split_at_heads_distinct; [exact HN | exact Hk].
    + intros _. apply split_at_head. lia.
Qed.

Lemma InsertWords_heads_distinct ws : forall t,
  every_node heads_distinct (Root t) ->
  every_node heads_distinct (Root (InsertWords t ws)).
Proof.
  induction ws as [|w ws IH]; intros t Ht; simpl; [exact Ht|].
  apply IH. now apply InsertWord_heads_distinct.
Qed.

Lemma InitTree_heads_distinct : every_node heads_distinct (Root InitTree).
Proof. simpl. repeat split; constructor. Qed.


(** ** The matcher after a write *)

Lemma prepend_nil m : prepend [] m = m.
Proof. destruct m; reflexivity. Qed.

Lemma Walk_ptr_nonempty n q p m : Walk n q p m -> m_idx m <> -1 -> m_ptr m <> [].
Proof.
  intros HW Hi. destruct (Walk_outcome _ _ _ _ HW) as [[? _]|[? _]]; tauto.
Qed.

Lemma Walk_full_at n q p pre c post m :
  Children n = pre ++ c :: post ->
  misses q pre ->
  (0 < List.length (Label c))%nat ->
  runner q (Label c) = List.length (Label c) ->
  Walk c (skipn (List.length (Label c)) q)
       (p ++ firstn (List.length (Label c)) q) m ->
  Walk n q p (under (List.length pre) m).
Proof.
  intros Hn Hpre Hpos Hr HW.
  eapply Walk_full; eauto; rewrite Hr; assumption.
Qed.

(** After a write that keeps the label of a node where the matcher came to
    a dead end, the matcher reaches the new node the same way and goes on
    from there. *)
Lemma Walk_store_dead n q p m v m' :
  Walk n q p m ->
  m_idx m = -1 ->
  Label v = Label (m_node m) ->
  Walk v (m_rest m) (m_prefix m) m' ->
  Walk (store n (m_ptr m) v) q p (prepend (m_ptr m) m').
Proof.
  intros HW; revert v m'.
  induction HW as [n q p H | n q p pre c post Hn Hpre H0 H1
                  | n q p pre c post m Hn Hpre H0 H1 HW IH];
    intros v m' Hi Hl Hv;
    cbn [m_ptr m_idx m_rest m_prefix m_node under] in *.
  - now rewrite prepend_nil.
  - lia.
  - rewrite (store_cons n _ (m_ptr m) v pre c post Hn eq_refl).
    assert (El : Label (store c (m_ptr m) v) = Label c).
    { destruct (m_ptr m) as [|j pth] eqn:Ep.
      - simpl. rewrite Hl. f_equal.
        inversion HW; subst; simpl in *; try discriminate; reflexivity.
      - apply store_Label. discriminate. }
    change (prepend (List.length pre :: m_ptr m) m')
      with (under (List.length pre) (prepend (m_ptr m) m')).
    apply Walk_full_at with (c := store c (m_ptr m) v) (post := post).
    + destruct n; reflexivity.
    + exact Hpre.
    + rewrite El; lia.
    + now rewrite El.
    + rewrite El, <- H1. now apply IH.
Qed.

(** After a split write, the matcher consumes the shortened label in full
    and goes on below the split node. *)
Lemma Walk_store_partial n q p m v m' :
  Walk n q p m ->
  m_idx m <> -1 ->
  Label v = firstn (runner (m_rest m) (Label (m_node m))) (m_rest m) ->
  Walk v (skipn (runner (m_rest m) (Label (m_node m))) (m_rest m))
       (m_prefix m ++ firstn (runner (m_rest m) (Label (m_node m))) (m_rest m))
       m' ->
  Walk (store n (m_ptr m) v) q p (prepend (m_ptr m) m').
Proof.
  intros HW; revert v m'.
  induction HW as [n q p H | n q p pre c post Hn Hpre H0 H1
                  | n q p pre c post m Hn Hpre H0 H1 HW IH];
    intros v m' Hi Hl Hv;
    cbn [m_ptr m_idx m_rest m_prefix m_node under] in *.
  - congruence.
  - rewrite (store_cons n _ [] v pre c post Hn eq_refl). simpl.
    pose proof (runner_le_query q (Label c)) as Hle.
    assert (Elen : List.length (Label v) = runner q (Label c)).
    { rewrite Hl, length_firstn. lia. }
    change (prepend [List.length pre] m')
      with (under (List.length pre) m').
    apply Walk_full_at with (c := v) (post := post).
    + destruct n; reflexivity.
    + exact Hpre.
    + lia.
    + rewrite Elen. rewrite Hl. now apply runner_own_prefix.
    + rewrite Elen. exact Hv.
  - rewrite (store_cons n _ (m_ptr m) v pre c post Hn eq_refl).
    assert (El : Label (store c (m_ptr m) v) = Label c).
    { apply store_Label. eapply Walk_ptr_nonempty; eauto. }
    change (prepend (List.length pre :: m_ptr m) m')
      with (under (List.length pre) (prepend (m_ptr m) m')).
    apply Walk_full_at with (c := store c (m_ptr m) v) (post := post).
    + destruct n; reflexivity.
    + exact Hpre.
    + rewrite El; lia.
    + now rewrite El.
    + rewrite El, <- H1. now apply IH.
Qed.

(** Below the freshly appended leaf the query is used up. *)
Lemma Walk_with_leaf N pfx rest :
  misses rest (Children N) -> rest <> [] ->
  exists m', Walk (with_leaf N pfx rest) rest pfx m' /\
             m_idx m' = -1 /\ m_rest m' = [].
Proof.
  intros Hm Hr.
  set (leaf := mkNode rest [] [] true false).
  exists (under (List.length (Children N))
                (mkMeta [] leaf (-1) [] (pfx ++ rest))).
  split; [|split; reflexivity].
  apply Walk_full_at with (c := leaf) (post := []); simpl.
  - reflexivity.
  - exact Hm.
  - destruct rest; [congruence | simpl; lia].
  - apply runner_refl.
  - rewrite skipn_all, firstn_all. apply Walk_dead. constructor.
Qed.

(** Below the split node the tail of the word is used up as well. *)
Lemma Walk_split_at N rest pfx :
  exists m',
    Walk (split_at N (runner rest (Label N)) rest)
         (skipn (runner rest (Label N)) rest) pfx m' /\
    m_idx m' = -1 /\ m_rest m' = [].
Proof.
  set (k := runner rest (Label N)).
  pose proof (runner_tails rest (Label N)) as Hz. fold k in Hz.
  unfold split_at.
  destruct (skipn k rest) as [|a tl] eqn:Hs.
  - eexists; split; [apply Walk_dead | split; reflexivity].
    simpl. repeat constructor.
  - set (old := mkNode (skipn k (Label N)) (Label N) (Children N)
                       (IsWordBoundary N) false).
    set (leaf := mkNode (a :: tl) [] [] true false).
    exists (under 1 (mkMeta [] leaf (-1) [] (pfx ++ a :: tl))).
    split; [|split; reflexivity].
    apply (Walk_full_at _ (a :: tl) pfx [old] leaf []).
    + reflexivity.
    + constructor; [exact Hz | constructor].
    + simpl; lia.
    + apply runner_refl.
    + change (Label leaf) with (a :: tl).
      rewrite skipn_all, firstn_all. apply Walk_dead. constructor.
Qed.

Lemma InsertWord_present t w :
  m_idx (findMatchedNodeMeta w [] (Root t)) = -1 ->
  m_rest (findMatchedNodeMeta w [] (Root t)) = [] ->
  InsertWord t w = t.
Proof. intros Hi Hr. unfold InsertWord. now rewrite Hi, Hr. Qed.

(** Inserting the word just inserted changes nothing. *)
Lemma InsertWord_twice t w : InsertWord (InsertWord t w) w = InsertWord t w.
Proof.
  pose proof (find_Walk (Root t) w []) as HW.
  destruct (InsertWord_cases t w)
    as [(_ & _ & E) | [(Hi & Hr & Hm & E) | (Hp & Hi & Hk & E)]].
  - now rewrite !E.
  - rewrite E.
    destruct (Walk_with_leaf (m_node (findMatchedNodeMeta w [] (Root t)))
                (m_prefix (findMatchedNodeMeta w [] (Root t))) _ Hm Hr)
      as (m' & Hm' & Hi' & Hr').
    pose proof (fun Hl => Walk_store_dead _ _ _ _ _ _ HW Hi Hl Hm') as HW'.
    specialize (HW' eq_refl).
    apply Walk_find in HW'.
    apply InsertWord_present; cbn [Root]; rewrite <- HW'; assumption.
  - rewrite E.
    destruct (Walk_split_at (m_node (findMatchedNodeMeta w [] (Root t)))
                (m_rest (findMatchedNodeMeta w [] (Root t)))
                (m_prefix (findMatchedNodeMeta w [] (Root t)) ++
                 firstn (runner (m_rest (findMatchedNodeMeta w [] (Root t)))
                                (Label (m_node (findMatchedNodeMeta w [] (Root t)))))
                        (m_rest (findMatchedNodeMeta w [] (Root t)))))
      as (m' & Hm' & Hi' & Hr').
    assert (Hne : m_idx (findMatchedNodeMeta w [] (Root t)) <> -1) by lia.
    pose proof (fun Hl => Walk_store_partial _ _ _ _ _ _ HW Hne Hl Hm') as HW'.
    specialize (HW' eq_refl).
    apply Walk_find in HW'.
    apply InsertWord_present; cbn [Root]; rewrite <- HW'; assumption.
Qed.

(** ** Traversal *)

Lemma iter_unfold n cw :
  iter n cw =
  (if IsWord n then [cw] else []) ++
  flat_map (fun c => iter c (cw ++ Label c)) (Children n).
Proof.
  destruct n as [l pf cs b r]; reflexivity.
Qed.

(** The traversal emits the stored words below a node, in depth-first
    order. *)
Lemma iter_nodes_dfs n : forall cw,
  iter n cw =
  map fst (filter (fun pn => IsWordBoundary (snd pn)) (nodes_dfs n cw)).
Proof.
  induction n as [l pf cs b r IH] using Node_nested_ind; intros cw.
  rewrite iter_unfold. cbn [nodes_dfs filter snd IsWord IsWordBoundary Children].
  assert (E : flat_map (fun c => iter c (cw ++ Label c)) cs =
              map fst (filter (fun pn => IsWordBoundary (snd pn))
                         (flat_map (fun c => nodes_dfs c (cw ++ Label c)) cs))).
  { induction IH as [|c cs Hc _ IHcs]; simpl; [reflexivity|].
    rewrite filter_app, map_app, Hc, IHcs. reflexivity. }
  rewrite E. destruct b; reflexivity.
Qed.

(** With non-empty labels everywhere, whatever the traversal emits below a
    node is longer than the word accumulated at the node. *)
Lemma iter_longer n : forall cw w,
  every_node heads_distinct n ->
  In w (iter n cw) ->
  (w = cw /\ IsWordBoundary n = true) \/ (List.length cw < List.length w)%nat.
Proof.
  induction n as [l pf cs b r IH] using Node_nested_ind; intros cw w Hn Hin.
  rewrite iter_unfold in Hin. cbn [IsWord IsWordBoundary Children] in *.
  apply in_app_or in Hin. destruct Hin as [Hin|Hin].
  - destruct b; [|destruct Hin]. destruct Hin as [<-|[]]. now left.
  - right. apply in_flat_map in Hin. destruct Hin as (c & Hc & Hin).
    apply every_node_unfold in Hn. destruct Hn as [[Hne _] Hall].
    cbn [Children] in *.
    rewrite Forall_forall in IH, Hne, Hall.
    pose proof (Hne c Hc) as Hl.
    assert (Hlen : (List.length cw < List.length (cw ++ Label c))%nat).
    { rewrite length_app. destruct (Label c); [congruence | simpl; lia]. }
    destruct (IH c Hc _ _ (Hall c Hc) Hin) as [[-> _]|Hlt]; lia.
Qed.

Lemma find_empty_query n p :
  findMatchedNodeMeta [] p n = mkMeta [] n (-1) [] p.
Proof.
  symmetry. apply Walk_find. apply Walk_dead.
  unfold misses. apply Forall_forall. intros c _. apply runner_nil_l.
Qed.

Lemma GetSuggestions_empty t : GetSuggestions t [] = Iter t.
Proof. unfold GetSuggestions. rewrite find_empty_query. reflexivity. Qed.

(** The root never becomes a word boundary. *)
Lemma InsertWord_root_flag t w :
  IsWordBoundary (Root (InsertWord t w)) = IsWordBoundary (Root t).
Proof.
  pose proof (Walk_deref _ _ _ _ (find_Walk (Root t) w [])) as Hd.
  destruct (InsertWord_cases t w)
    as [(_ & _ & ->) | [(_ & _ & _ & ->) | (Hp & _ & _ & ->)]];
    [reflexivity | |]; cbn [Root].
  - destruct (m_ptr (findMatchedNodeMeta w [] (Root t))) as [|i pth].
    + simpl in *. now inversion Hd.
    + apply store_IsWordBoundary. discriminate.
  - now apply store_IsWordBoundary.
Qed.

Lemma InsertWords_root_flag ws : forall t,
  IsWordBoundary (Root (InsertWords t ws)) = IsWordBoundary (Root t).
Proof.
  induction ws as [|w ws IH]; intros t; simpl; [reflexivity|].
  change (fold_left InsertWord ws (InsertWord t w))
    with (InsertWords (InsertWord t w) ws).
  now rewrite IH, InsertWord_root_flag.
Qed.

(** ** Sorting *)

Lemma N_of_ascii_inj x y : N_of_ascii x = N_of_ascii y -> x = y.
Proof.
  intros H. rewrite <- (ascii_N_embedding x), <- (ascii_N_embedding y).
  now rewrite H.
Qed.

Lemma string_le_total a : forall b, string_le a b \/ string_le b a.
Proof.
  unfold string_le.
  induction a as [|x a IH]; intros [|y b]; simpl; auto.
  destruct (N.ltb_spec (N_of_ascii x) (N_of_ascii y)); [now left|].
  destruct (N.ltb_spec (N_of_ascii y) (N_of_ascii x)); [now right|].
  destruct (N.eqb_spec (N_of_ascii x) (N_of_ascii y)); [|lia].
  destruct (N.eqb_spec (N_of_ascii y) (N_of_ascii x)); [|lia].
  apply IH.
Qed.

Lemma string_le_antisym a : forall b, string_le a b -> string_le b a -> a = b.
Proof.
  unfold string_le.
  induction a as [|x a IH]; intros [|y b]; simpl; try discriminate; auto.
  destruct (N.ltb_spec (N_of_ascii x) (N_of_ascii y));
    destruct (N.ltb_spec (N_of_ascii y) (N_of_ascii x)); try lia;
    destruct (N.eqb_spec (N_of_ascii x) (N_of_ascii y));
    destruct (N.eqb_spec (N_of_ascii y) (N_of_ascii x));
    try lia; try discriminate.
  intros H1 H2. f_equal; [now apply N_of_ascii_inj | now apply IH].
Qed.

Lemma string_le_trans a : forall b c,
  string_le a b -> string_le b c -> string_le a c.
Proof.
  unfold string_le.
  induction a as [|x a IH]; intros [|y b] [|z c]; simpl;
    try discriminate; auto.
  destruct (N.ltb_spec (N_of_ascii x) (N_of_ascii y));
    destruct (N.ltb_spec (N_of_ascii y) (N_of_ascii z));
    destruct (N.ltb_spec (N_of_ascii x) (N_of_ascii z)); try lia;
    destruct (N.eqb_spec (N_of_ascii x) (N_of_ascii y));
    destruct (N.eqb_spec (N_of_ascii y) (N_of_ascii z));
    destruct (N.eqb_spec (N_of_ascii x) (N_of_ascii z));
    try lia; try discriminate; auto.
  apply IH.
Qed.

Lemma insert_sorted_perm x l : Permutation (x :: l) (insert_sorted x l).
Proof.
  induction l as [|y l IH]; simpl; [reflexivity|].
  destruct (string_leb x y); [reflexivity|].
  rewrite perm_swap. now constructor.
Qed.

Lemma sort_Strings_perm l : Permutation l (sort_Strings l).
Proof.
  induction l as [|x l IH]; simpl; [constructor|].
  rewrite <- insert_sorted_perm. now constructor.
Qed.

Lemma insert_sorted_sorted x l :
  StronglySorted string_le l -> StronglySorted string_le (insert_sorted x l).
Proof.
  induction 1 as [|y l Hl IH Hy]; simpl; [repeat constructor|].
  destruct (string_leb x y) eqn:E.
  - constructor; [now constructor|].
    constructor; [exact E|].
    rewrite Forall_forall in *. intros z Hz.
    apply (string_le_trans x y z); [exact E | now apply Hy].
  - constructor; [exact IH|].
    rewrite Forall_forall in *. intros z Hz.
    apply (Permutation_in _ (Permutation_sym (insert_sorted_perm x l))) in Hz.
    destruct Hz as [<-|Hz]; [|now apply Hy].
    destruct (string_le_total x y) as [H|H]; [|exact H].
    unfold string_le in H. congruence.
Qed.

Lemma sort_Strings_sorted l : StronglySorted string_le (sort_Strings l).
Proof.
  induction l as [|x l IH]; simpl; [constructor|].
  now apply insert_sorted_sorted.
Qed.

(** An ascending list is determined by its elements. *)
Lemma sorted_perm_unique l1 : forall l2,
  StronglySorted string_le l1 -> StronglySorted string_le l2 ->
  Permutation l1 l2 -> l1 = l2.
Proof.
  induction l1 as [|a l1 IH]; intros l2 H1 H2 HP.
  - apply Permutation_nil in HP. now subst.
  - destruct l2 as [|b l2].
    + apply Permutation_sym, Permutation_nil in HP. discriminate.
    + inversion H1 as [|? ? S1 F1]; inversion H2 as [|? ? S2 F2]; subst.
      rewrite Forall_forall in F1, F2.
      assert (E : a = b).
      { assert (Ha : In a (b :: l2))
          by (apply (Permutation_in _ HP); now left).
        assert (Hb : In b (a :: l1))
          by (apply (Permutation_in _ (Permutation_sym HP)); now left).
        destruct Ha as [->|Ha]; [reflexivity|].
        destruct Hb as [->|Hb]; [reflexivity|].
        apply string_le_antisym; auto. }
      subst b. f_equal. apply IH; auto.
      now apply Permutation_cons_inv in HP.
Qed.

Lemma sort_Strings_perm_eq l1 l2 :
  Permutation l1 l2 -> sort_Strings l1 = sort_Strings l2.
Proof.
  intros HP. apply sorted_perm_unique; try apply sort_Strings_sorted.
  now rewrite <- !sort_Strings_perm.
Qed.

(** ** The map of suggestions *)

Lemma gostring_eqb_eq a b : gostring_eqb a b = true <-> a = b.
Proof.
  unfold gostring_eqb. destruct (list_eq_dec ascii_dec a b); split;
    congruence.
Qed.

Lemma lookup_In m k : lookup m k = true <-> In k m.
Proof.
  unfold lookup. rewrite existsb_exists. split.
  - intros (x & Hx & E). apply gostring_eqb_eq in E. now subst.
  - intros H. exists k. split; [exact H | now apply gostring_eqb_eq].
Qed.

Lemma record_match_In m k x : In x (record_match m k) <-> x = k \/ In x m.
Proof.
  unfold record_match. destruct (lookup m k) eqn:E; simpl.
  - apply lookup_In in E. split; [auto | intros [->|H]; auto].
  - split; intros [H|H]; auto.
Qed.

Lemma record_match_NoDup m k : NoDup m -> NoDup (record_match m k).
Proof.
  intros H. unfold record_match. destruct (lookup m k) eqn:E; [exact H|].
  constructor; [|exact H]. intros Hin. apply lookup_In in Hin. congruence.
Qed.

Lemma record_matches_In l : forall m x,
  In x (fold_left record_match l m) <-> In x l \/ In x m.
Proof.
  induction l as [|k l IH]; intros m x; simpl; [tauto|].
  rewrite IH, record_match_In. intuition congruence.
Qed.

Lemma record_matches_NoDup l : forall m,
  NoDup m -> NoDup (fold_left record_match l m).
Proof.
  induction l as [|k l IH]; intros m H; simpl; [exact H|].
  apply IH. now apply record_match_NoDup.
Qed.

(** With as many sends as queries, and at least one, the receiving loop
    reaches its [break] holding exactly what was sent. *)
Lemma receive_all ch : forall m0,
  ch <> [] -> NoDup m0 ->
  exists m, receive ch (len ch) m0 = Some m /\ NoDup m /\
            forall x, In x m <-> In x m0 \/ exists l, In l ch /\ In x l.
Proof.
  induction ch as [|l ch IH]; intros m0 Hne Hnd; [congruence|].
  cbn [receive].
  replace (len (l :: ch) - 1) with (len ch)
    by (unfold len; simpl List.length; lia).
  pose proof (record_matches_NoDup l m0 Hnd) as Hnd'.
  destruct ch as [|l' ch].
  - simpl. eexists; split; [reflexivity|]. split; [exact Hnd'|].
    intros x. rewrite record_matches_In. split.
    + intros [H|H]; [right; exists l; simpl; auto | now left].
    + intros [H|(l0 & [<-|[]] & H)]; auto.
  - destruct (Z.eqb_spec (len (l' :: ch)) 0) as [E|_];
      [unfold len in E; simpl in E; lia|].
    destruct (IH (fold_left record_match l m0)) as (m & Hm & Hn & Hin);
      [discriminate | exact Hnd' |].
    exists m. split; [exact Hm|]. split; [exact Hn|].
    intros x. rewrite Hin, record_matches_In. split.
    + intros [[H|H]|(l0 & H0 & H)].
      * right; exists l; simpl; auto.
      * now left.
      * right; exists l0; simpl; auto.
    + intros [H|(l0 & [<-|H0] & H)]; auto.
      right; exists l0; auto.
Qed.

Lemma is_sorted_dedup_union_unique t Q r1 r2 :
  is_sorted_dedup_union t Q r1 -> is_sorted_dedup_union t Q r2 -> r1 = r2.
Proof.
  intros (S1 & N1 & I1) (S2 & N2 & I2).
  apply sorted_perm_unique; auto.
  apply NoDup_Permutation; auto.
  intros x. now rewrite I1, I2.
Qed.

(** For at least one query, every run returns, and returns the
    deduplicated, sorted union of the suggestions. *)
Lemma GetSuggestionsForSlice_run_union t Q completion ranging :
  Q <> [] ->
  possible_run t Q completion ranging ->
  exists r, GetSuggestionsForSlice_run Q completion ranging = Some r /\
            is_sorted_dedup_union t Q r.
Proof.
  intros HQ [Hc Hr]. unfold GetSuggestionsForSlice_run.
  assert (Hlen : len Q = len completion).
  { unfold len. f_equal. rewrite (Permutation_length Hc). now rewrite length_map. }
  assert (Hne : completion <> []).
  { intros ->. apply Permutation_nil in Hc.
    destruct Q; [congruence | discriminate]. }
  rewrite Hlen.
  destruct (receive_all completion [] Hne (NoDup_nil _)) as (m & -> & Hnd & Hin).
  eexists; split; [reflexivity|].
  assert (HP : Permutation m (sort_Strings (ranging m))).
  { rewrite <- sort_Strings_perm. symmetry. apply Hr. }
  split; [apply sort_Strings_sorted|]. split.
  - eapply Permutation_NoDup; eauto.
  - intros x. split.
    + intros Hx. apply (Permutation_in _ (Permutation_sym HP)) in Hx.
      apply Hin in Hx. destruct Hx as [[]|(l & Hl & Hx)].
      apply (Permutation_in _ Hc) in Hl. apply in_map_iff in Hl.
      destruct Hl as (q & <- & Hq). now exists q.
    + intros (q & Hq & Hx). apply (Permutation_in _ HP). apply Hin. right.
      exists (GetSuggestions t q). split; [|exact Hx].
      apply (Permutation_in _ (Permutation_sym Hc)). now apply in_map.
Qed.

(** ... so the result is the same whatever the completion order. *)
Lemma GetSuggestionsForSlice_run_deterministic t Q c1 g1 c2 g2 :
  Q <> [] ->
  possible_run t Q c1 g1 -> possible_run t Q c2 g2 ->
  GetSuggestionsForSlice_run Q c1 g1 = GetSuggestionsForSlice_run Q c2 g2.
Proof.
  intros HQ H1 H2.
  destruct (GetSuggestionsForSlice_run_union t Q c1 g1 HQ H1) as (r1 & -> & U1).
  destruct (GetSuggestionsForSlice_run_union t Q c2 g2 HQ H2) as (r2 & -> & U2).
  f_equal. eapply is_sorted_dedup_union_unique; eauto.
Qed.

(** With no query nothing is ever sent, and the loop never reaches its
    [break]. *)
Lemma possible_run_no_queries t completion ranging :
  possible_run t [] completion ranging ->
  GetSuggestionsForSlice_run [] completion ranging = None.
Proof.
  intros [Hc _]. simpl in Hc. apply Permutation_sym, Permutation_nil in Hc.
  subst. reflexivity.
Qed.

(** ** Search and the stored words *)

Lemma Walk_word n q p m : Walk n q p m -> p ++ q = m_prefix m ++ m_rest m.
Proof.
  induction 1 as [| | n q p pre c post m _ _ _ _ _ IH]; simpl;
    try reflexivity.
  rewrite <- IH, <- app_assoc, firstn_skipn. reflexivity.
Qed.

Lemma runner_full_label q l :
  runner q l = List.length l -> firstn (runner q l) q = l.
Proof.
  intros H. rewrite runner_firstn, H. apply firstn_all.
Qed.

Lemma runner_label_app l s : runner (l ++ s) l = List.length l.
Proof.
  induction l as [|a l IH]; simpl; [apply runner_nil_r|].
  now rewrite Ascii.eqb_refl, IH.
Qed.

Lemma iter_extends n : forall cw x, In x (iter n cw) -> exists s, x = cw ++ s.
Proof.
  induction n as [l pf cs b r IH] using Node_nested_ind; intros cw x Hin.
  rewrite iter_unfold in Hin. cbn [IsWord IsWordBoundary Children] in Hin.
  apply in_app_or in Hin. destruct Hin as [Hin|Hin].
  - destruct b; [|destruct Hin]. destruct Hin as [<-|[]].
    exists []. now rewrite app_nil_r.
  - apply in_flat_map in Hin. destruct Hin as (c & Hc & Hin).
    rewrite Forall_forall in IH.
    destruct (IH c Hc _ _ Hin) as (s & ->).
    exists (Label c ++ s). now rewrite app_assoc.
Qed.

Lemma iter_child n c cw x :
  In c (Children n) -> In x (iter c (cw ++ Label c)) -> In x (iter n cw).
Proof.
  intros Hc Hx. rewrite iter_unfold. apply in_or_app. right.
  apply in_flat_map. now exists c.
Qed.

(** A query used up on a word-boundary node is one of the words the
    traversal emits. *)
Lemma Walk_found_iter n q p m :
  Walk n q p m ->
  m_rest m = [] -> IsWord (m_node m) = true ->
  In (p ++ q) (iter n p).
Proof.
  induction 1 as [n q p H | n q p pre c post Hn Hpre H0 H1
                 | n q p pre c post m Hn Hpre H0 H1 HW IH];
    cbn [m_rest m_node under]; intros Hr Hw.
  - subst q. rewrite app_nil_r, iter_unfold, Hw. now left.
  - subst q. rewrite runner_nil_l in H0. lia.
  - apply (iter_child n c); [rewrite Hn; apply in_elt|].
    specialize (IH Hr Hw).
    rewrite <- app_assoc, firstn_skipn in IH.
    now rewrite (runner_full_label _ _ H1) in IH.
Qed.

Lemma heads_distinct_same_head n c c' :
  heads_distinct n -> In c (Children n) -> In c' (Children n) ->
  head c = head c' -> c = c'.
Proof.
  intros [_ Hnd] Hc Hc' Hh.
  revert Hnd Hc Hc'. generalize (Children n) as cs.
  induction cs as [|d cs IH]; simpl; intros Hnd Hc Hc'; [contradiction|].
  inversion Hnd as [|? ? Hd Hnd']; subst.
  destruct Hc as [->|Hc], Hc' as [->|Hc']; auto.
  - exfalso. apply Hd. rewrite Hh. now apply in_map.
  - exfalso. apply Hd. rewrite <- Hh. now apply in_map.
Qed.

(** What the traversal emits below a child starts with that child's label;
    with disjoint siblings this names the child the matcher picks. *)
Lemma emitted_below_child n q p :
  every_node heads_distinct n ->
  In (p ++ q) (iter n p) -> q <> [] ->
  exists c s, In c (Children n) /\ q = Label c ++ s /\ Label c <> [] /\
              In (p ++ q) (iter c (p ++ Label c)).
Proof.
  intros Hn Hin Hq.
  rewrite iter_unfold in Hin. apply in_app_or in Hin. destruct Hin as [Hin|Hin].
  - destruct (IsWord n); [|destruct Hin]. destruct Hin as [E|[]].
    rewrite <- (app_nil_r p) in E at 1. apply app_inv_head in E. congruence.
  - apply in_flat_map in Hin. destruct Hin as (c & Hc & Hin).
    destruct (iter_extends _ _ _ Hin) as (s & E).
    rewrite <- app_assoc in E. apply app_inv_head in E.
    exists c, s. repeat split; auto.
    apply every_node_here in Hn. destruct Hn as [Hne _].
    rewrite Forall_forall in Hne. now apply Hne.
Qed.

Lemma hd_error_app_nonempty (l s : gostring) :
  l <> [] -> hd_error (l ++ s) = hd_error l.
Proof. destruct l; [congruence | reflexivity]. Qed.

(** With disjoint siblings, every word the traversal emits is found by the
    matcher: the query is used up on a word-boundary node. *)
Lemma iter_found_Walk n q p m :
  Walk n q p m ->
  every_node heads_distinct n ->
  In (p ++ q) (iter n p) ->
  m_rest m = [] /\ IsWord (m_node m) = true.
Proof.
  induction 1 as [n q p H | n q p pre c post Hn Hpre H0 H1
                 | n q p pre c post m Hn Hpre H0 H1 HW IH];
    cbn [m_rest m_node under]; intros Hinv Hin.
  - destruct q as [|a q].
    + split; [reflexivity|].
      rewrite app_nil_r, iter_unfold in Hin.
      apply in_app_or in Hin. destruct Hin as [Hin|Hin].
      * destruct (IsWord n); [reflexivity | destruct Hin].
      * exfalso. apply in_flat_map in Hin. destruct Hin as (c & Hc & Hin).
        pose proof (every_node_here _ _ Hinv) as [Hne _].
        rewrite Forall_forall in Hne. specialize (Hne c Hc).
        apply every_node_unfold in Hinv. destruct Hinv as [_ Hall].
        rewrite Forall_forall in Hall.
        destruct (iter_longer _ _ _ (Hall c Hc) Hin) as [[E _]|Hlt].
        -- rewrite <- (app_nil_r p) in E at 1. apply app_inv_head in E.
           congruence.
        -- rewrite length_app in Hlt. lia.
    + exfalso.
      destruct (emitted_below_child n (a :: q) p Hinv Hin)
        as (c & s & Hc & E & Hl & _); [discriminate|].
      unfold misses in H. rewrite Forall_forall in H. specialize (H c Hc).
      rewrite E, runner_label_app in H.
      destruct (Label c); [congruence | discriminate].
  - exfalso.
    destruct (runner_pos_hd _ _ H0) as (Hh & Hq & Hl).
    destruct (emitted_below_child n q p Hinv Hin Hq)
      as (c' & s & Hc' & E & Hl' & _).
    assert (c' = c).
    { apply (heads_distinct_same_head n); auto.
      - now apply every_node_here.
      - rewrite Hn. apply in_elt.
      - unfold head. rewrite <- Hh, E. symmetry.
        now apply hd_error_app_nonempty. }
    subst c'. rewrite E, runner_label_app in H1. lia.
  - destruct (runner_pos_hd _ _ H0) as (Hh & Hq & Hl).
    destruct (emitted_below_child n q p Hinv Hin Hq)
      as (c' & s & Hc' & E & Hl' & Hin').
    assert (c' = c).
    { apply (heads_distinct_same_head n); auto.
      - now apply every_node_here.
      - rewrite Hn. apply in_elt.
      - unfold head. rewrite <- Hh, E. symmetry.
        now apply hd_error_app_nonempty. }
    subst c'.
    apply IH.
    + apply every_node_unfold in Hinv. destruct Hinv as [_ Hall].
      rewrite Forall_forall in Hall. now apply Hall.
    + rewrite <- app_assoc, firstn_skipn.
      now rewrite (runner_full_label _ _ H1).
Qed.

Lemma Search_Iter t q : Search t q = true -> In q (Iter t).
Proof.
  unfold Search, Iter. intros H. apply andb_prop in H. destruct H as [Hr Hw].
  apply (Walk_found_iter _ _ [] _ (find_Walk (Root t) q [])); auto.
  apply Z.eqb_eq in Hr. unfold len in Hr.
  destruct (m_rest _); [reflexivity | simpl in Hr; lia].
Qed.

Lemma Iter_Search t q :
  every_node heads_distinct (Root t) -> In q (Iter t) -> Search t q = true.
Proof.
  unfold Search, Iter. intros Hinv Hin.
  destruct (iter_found_Walk _ _ [] _ (find_Walk (Root t) q []) Hinv Hin)
    as [-> ->].
  reflexivity.
Qed.


(** ** The stored words after a write *)

Lemma iter_same a b cw :
  IsWord a = IsWord b -> Children a = Children b -> iter a cw = iter b cw.
Proof. intros Hw Hc. now rewrite !iter_unfold, Hw, Hc. Qed.

Lemma iter_at_child n pre c post cw :
  Children n = pre ++ c :: post ->
  iter n cw =
  ((if IsWord n then [cw] else []) ++
   flat_map (fun c => iter c (cw ++ Label c)) pre) ++
  iter c (cw ++ Label c) ++
  flat_map (fun c => iter c (cw ++ Label c)) post.
Proof.
  intros Hn. rewrite iter_unfold, Hn, flat_map_app. simpl.
  now rewrite <- app_assoc.
Qed.

Lemma iter_store_child n pre c c' post cw :
  Children n = pre ++ c :: post ->
  iter (set_Children (pre ++ c' :: post) n) cw =
  ((if IsWord n then [cw] else []) ++
   flat_map (fun c => iter c (cw ++ Label c)) pre) ++
  iter c' (cw ++ Label c') ++
  flat_map (fun c => iter c (cw ++ Label c)) post.
Proof.
  intros _. rewrite (iter_at_child _ pre c' post); [|destruct n; reflexivity].
  destruct n; reflexivity.
Qed.

(** A write at a dead end replaces, in the emitted sequence, what the matched
    node emitted by what the new node emits. *)
Lemma iter_store_dead n q p m :
  Walk n q p m ->
  m_idx m = -1 ->
  exists A B,
    iter n p = A ++ iter (m_node m) (m_prefix m) ++ B /\
    forall v, Label v = Label (m_node m) ->
              iter (store n (m_ptr m) v) p = A ++ iter v (m_prefix m) ++ B.
Proof.
  induction 1 as [n q p H | n q p pre c post Hn Hpre H0 H1
                 | n q p pre c post m Hn Hpre H0 H1 HW IH];
    cbn [m_ptr m_idx m_rest m_prefix m_node under]; intros Hi.
  - exists [], []. split; [|intros v _]; simpl; now rewrite app_nil_r.
  - lia.
  - destruct (IH Hi) as (A & B & E & Ev).
    rewrite (runner_full_label _ _ H1) in E, Ev.
    exists (((if IsWord n then [p] else []) ++
             flat_map (fun c => iter c (p ++ Label c)) pre) ++ A),
           (B ++ flat_map (fun c => iter c (p ++ Label c)) post).
    split.
    + rewrite (iter_at_child n pre c post p Hn), E.
      rewrite <- !app_assoc. reflexivity.
    + intros v Hl.
      rewrite (store_cons n _ (m_ptr m) v pre c post Hn eq_refl).
      rewrite (iter_store_child n pre c _ post p Hn).
      assert (El : Label (store c (m_ptr m) v) = Label c).
      { destruct (m_ptr m) as [|j pth] eqn:Ep.
        - simpl. rewrite Hl. f_equal.
          inversion HW; subst; simpl in *; try discriminate; reflexivity.
        - apply store_Label. discriminate. }
      rewrite El, (Ev v Hl), <- !app_assoc. reflexivity.
Qed.

(** The same for a write at a split point; the node sits below the prefix
    and contributes its own label. *)
Lemma iter_store_partial n q p m :
  Walk n q p m ->
  m_idx m <> -1 ->
  exists A B,
    iter n p = A ++ iter (m_node m) (m_prefix m ++ Label (m_node m)) ++ B /\
    forall v, iter (store n (m_ptr m) v) p =
              A ++ iter v (m_prefix m ++ Label v) ++ B.
Proof.
  induction 1 as [n q p H | n q p pre c post Hn Hpre H0 H1
                 | n q p pre c post m Hn Hpre H0 H1 HW IH];
    cbn [m_ptr m_idx m_rest m_prefix m_node under]; intros Hi.
  - congruence.
  - exists ((if IsWord n then [p] else []) ++
            flat_map (fun c => iter c (p ++ Label c)) pre),
           (flat_map (fun c => iter c (p ++ Label c)) post).
    split.
    + apply (iter_at_child n pre c post p Hn).
    + intros v.
      rewrite (store_cons n _ [] v pre c post Hn eq_refl). simpl store.
      apply (iter_store_child n pre c v post p Hn).
  - destruct (IH Hi) as (A & B & E & Ev).
    rewrite (runner_full_label _ _ H1) in E, Ev.
    exists (((if IsWord n then [p] else []) ++
             flat_map (fun c => iter c (p ++ Label c)) pre) ++ A),
           (B ++ flat_map (fun c => iter c (p ++ Label c)) post).
    split.
    + rewrite (iter_at_child n pre c post p Hn), E.
      rewrite <- !app_assoc. reflexivity.
    + intros v.
      rewrite (store_cons n _ (m_ptr m) v pre c post Hn eq_refl).
      rewrite (iter_store_child n pre c _ post p Hn).
      rewrite store_Label by (eapply Walk_ptr_nonempty; eauto).
      rewrite (Ev v), <- !app_assoc. reflexivity.
Qed.

Lemma iter_with_leaf N pfx rest :
  iter (with_leaf N pfx rest) pfx = iter N pfx ++ [pfx ++ rest].
Proof.
  rewrite !iter_unfold. unfold with_leaf.
  cbn [IsWord IsWordBoundary Children].
  rewrite flat_map_app, <- app_assoc. reflexivity.
Qed.

Lemma iter_split_at N rest pfx :
  iter (split_at N (runner rest (Label N)) rest)
       (pfx ++ firstn (runner rest (Label N)) rest) =
  iter N (pfx ++ Label N) ++
  match skipn (runner rest (Label N)) rest with
  | [] => []
  | _ :: _ => [pfx ++ rest]
  end.
Proof.
  set (k := runner rest (Label N)).
  assert (E1 : (pfx ++ firstn k rest) ++ skipn k (Label N) = pfx ++ Label N).
  { unfold k. rewrite runner_firstn, <- app_assoc, firstn_skipn. reflexivity. }
  assert (E2 : (pfx ++ firstn k rest) ++ skipn k rest = pfx ++ rest).
  { rewrite <- app_assoc, firstn_skipn. reflexivity. }
  rewrite iter_unfold. unfold split_at.
  cbn [IsWord IsWordBoundary Children app flat_map Label].
  rewrite E1.
  rewrite (iter_same _ N (pfx ++ Label N)) by reflexivity.
  destruct (skipn k rest) as [|a tl] eqn:Hs.
  - reflexivity.
  - cbn [flat_map Label]. rewrite E2, app_nil_r. reflexivity.
Qed.

Lemma adds_leaf_dead t w :
  m_idx (findMatchedNodeMeta w [] (Root t)) = -1 ->
  adds_leaf t w =
  match m_rest (findMatchedNodeMeta w [] (Root t)) with
  | [] => false
  | _ :: _ => true
  end.
Proof.
  intros Hi. unfold adds_leaf. rewrite Hi. simpl.
  destruct (m_rest _); reflexivity.
Qed.

Lemma adds_leaf_partial t w :
  m_idx (findMatchedNodeMeta w [] (Root t)) =
    Z.of_nat (runner (m_rest (findMatchedNodeMeta w [] (Root t)))
                     (Label (m_node (findMatchedNodeMeta w [] (Root t))))) ->
  adds_leaf t w =
  match skipn (runner (m_rest (findMatchedNodeMeta w [] (Root t)))
                      (Label (m_node (findMatchedNodeMeta w [] (Root t)))))
              (m_rest (findMatchedNodeMeta w [] (Root t))) with
  | [] => false
  | _ :: _ => true
  end.
Proof.
  intros Hi. unfold adds_leaf. rewrite Hi.
  destruct (Z.eqb_spec (Z.of_nat (runner (m_rest (findMatchedNodeMeta w [] (Root t)))
                     (Label (m_node (findMatchedNodeMeta w [] (Root t)))))) (-1));
    [lia|].
  unfold slice_from, gostring_eqb. rewrite Nat2Z.id.
  destruct (skipn _ _); reflexivity.
Qed.

(** The words emitted after [InsertWord]: those emitted before, and the
    inserted word when a leaf was created for it. *)
Lemma Iter_InsertWord t w x :
  In x (Iter (InsertWord t w)) <->
  In x (Iter t) \/ (x = w /\ adds_leaf t w = true).
Proof.
  pose proof (find_Walk (Root t) w []) as HW.
  pose proof (Walk_word _ _ _ _ HW) as Hword. simpl in Hword.
  unfold Iter.
  destruct (InsertWord_cases t w)
    as [(Hi & Hr & ->) | [(Hi & Hr & Hm & ->) | (Hp & Hi & Hk & ->)]].
  - rewrite (adds_leaf_dead t w Hi), Hr. intuition discriminate.
  - rewrite (adds_leaf_dead t w Hi).
    destruct (iter_store_dead _ _ _ _ HW Hi) as (A & B & E & Ev).
    cbn [Root]. rewrite Ev by reflexivity. rewrite E, iter_with_leaf.
    rewrite <- Hword.
    destruct (m_rest (findMatchedNodeMeta w [] (Root t))); [congruence|].
    rewrite !in_app_iff. simpl. intuition.
  - rewrite (adds_leaf_partial t w Hi).
    assert (Hne : m_idx (findMatchedNodeMeta w [] (Root t)) <> -1) by lia.
    destruct (iter_store_partial _ _ _ _ HW Hne) as (A & B & E & Ev).
    cbn [Root]. rewrite Ev. rewrite E.
    change (Label (split_at ?N ?k ?r)) with (firstn k r).
    rewrite iter_split_at, <- Hword.
    destruct (skipn _ (m_rest (findMatchedNodeMeta w [] (Root t)))).
    + rewrite app_nil_r. intuition discriminate.
    + rewrite !in_app_iff. simpl. intuition.
Qed.

Lemma Iter_InsertWords ws : forall t x,
  In x (Iter (InsertWords t ws)) -> In x (Iter t) \/ In x ws.
Proof.
  induction ws as [|w ws IH]; intros t x Hin; simpl in *; [now left|].
  destruct (IH _ _ Hin) as [H|H]; [|now right; right].
  apply Iter_InsertWord in H. destruct H as [H|[-> _]]; auto.
Qed.

(** [Search] answers [true] only for inserted words. *)
Lemma Search_only_inserted ws q :
  Search (InsertWords InitTree ws) q = true -> In q ws.
Proof.
  intros H. apply Search_Iter in H.
  destruct (Iter_InsertWords _ _ _ H) as [[]|H']. exact H'.
Qed.

(** What [Search] answers after an insertion. *)
Lemma Search_InsertWord t w q :
  every_node heads_distinct (Root t) ->
  Search (InsertWord t w) q = true <->
  Search t q = true \/ (q = w /\ adds_leaf t w = true).
Proof.
  intros Hinv.
  pose proof (InsertWord_heads_distinct t w Hinv) as Hinv'.
  split.
  - intros H. apply Search_Iter, Iter_InsertWord in H.
    destruct H as [H|H]; [left; now apply Iter_Search | now right].
  - intros H. apply Iter_Search; [exact Hinv'|]. apply Iter_InsertWord.
    destruct H as [H|H]; [left; now apply Search_Iter | now right].
Qed.

(** Words found before an insertion are found after it. *)
Lemma Search_preserved ws w q :
  Search (InsertWords InitTree ws) q = true ->
  Search (InsertWord (InsertWords InitTree ws) w) q = true.
Proof.
  intros H. apply Search_InsertWord; [|now left].
  apply InsertWords_heads_distinct, InitTree_heads_distinct.
Qed.

(** ** Suggestions that do not read the cached prefix *)

Lemma Walk_emits_below n q p m x :
  Walk n q p m ->
  (m_idx m = -1 -> In x (iter (m_node m) (m_prefix m)) -> In x (iter n p)) /\
  (m_idx m <> -1 ->
   In x (iter (m_node m) (m_prefix m ++ Label (m_node m))) -> In x (iter n p)).
Proof.
  intros HW. split; intros Hi Hin.
  - destruct (iter_store_dead _ _ _ _ HW Hi) as (A & B & -> & _).
    rewrite !in_app_iff. auto.
  - destruct (iter_store_partial _ _ _ _ HW Hi) as (A & B & -> & _).
    rewrite !in_app_iff. auto.
Qed.

(** Unless the query ends inside the label of a node that has children,
    every suggestion starts with the query and was inserted. *)
Lemma GetSuggestions_sound_off_branch ws q x :
  ends_inside_branch (InsertWords InitTree ws) q = false ->
  In x (GetSuggestions (InsertWords InitTree ws) q) ->
  (exists s, x = q ++ s) /\ In x ws.
Proof.
  set (t := InsertWords InitTree ws).
  unfold ends_inside_branch, GetSuggestions.
  pose proof (find_Walk (Root t) q []) as HW.
  pose proof (Walk_word _ _ _ _ HW) as Hword. simpl in Hword.
  destruct (Walk_emits_below _ _ _ _ x HW) as [Hdead Hpart].
  assert (Hws : In x (iter (Root t) []) -> In x ws).
  { intros H. destruct (Iter_InsertWords ws InitTree x H) as [[]|H']. exact H'. }
  destruct (Walk_outcome _ _ _ _ HW) as [[Hi Hm]|(Hp & Hi & Hk)].
  - rewrite Hi. intros _.
    destruct (m_rest (findMatchedNodeMeta q [] (Root t))) as [|a r] eqn:Hr.
    + simpl. rewrite app_nil_r in Hword. rewrite <- Hword. intros Hin.
      split; [exact (iter_extends _ _ _ Hin)|].
      apply Hws, Hdead; [exact Hi | rewrite <- Hword; exact Hin].
    + unfold len. simpl List.length.
      destruct (Z.ltb_spec (-1) (Z.of_nat (S (List.length r)))); [|lia].
      destruct (Z.gtb_spec (Z.of_nat (S (List.length r))) 0); [|lia].
      intros [].
  - set (m := findMatchedNodeMeta q [] (Root t)) in *.
    set (k := runner (m_rest m) (Label (m_node m))) in *.
    pose proof (runner_le_query (m_rest m) (Label (m_node m))) as Hle.
    fold k in Hle. rewrite Hi. unfold len.
    destruct (Z.ltb_spec (Z.of_nat k) (Z.of_nat (List.length (m_rest m))))
      as [Hlt|Hge].
    + destruct (Z.gtb_spec (Z.of_nat (List.length (m_rest m))) 0); [|lia].
      intros _ [].
    + assert (Ek : k = List.length (m_rest m)) by lia.
      cbn [andb].
      destruct (Z.gtb_spec (Z.of_nat k) 0); [|lia].
      destruct (Z.ltb_spec (Z.of_nat k) (Z.of_nat (List.length (Label (m_node m)))));
        [|lia].
      destruct (Z.eqb_spec (Z.of_nat k) (Z.of_nat (List.length (m_rest m))));
        [|lia].
      destruct (Z.gtb_spec (Z.of_nat (List.length (m_rest m))) 0); [|lia].
      cbn [andb].
      destruct (IsLeaf (m_node m)); [|discriminate].
      intros _ Hin. split.
      * destruct (iter_extends _ _ _ Hin) as (s & ->).
        exists (skipn k (Label (m_node m)) ++ s).
        assert (El : Label (m_node m) =
                     m_rest m ++ skipn k (Label (m_node m))).
        { rewrite <- (firstn_skipn k (Label (m_node m))) at 1.
          unfold k at 1. rewrite <- runner_firstn. fold k.
          rewrite Ek at 1. now rewrite firstn_all. }
        transitivity ((m_prefix m ++ m_rest m) ++
                      skipn k (Label (m_node m)) ++ s);
          [|now rewrite <- Hword].
        rewrite El at 1. now rewrite <- !app_assoc.
      * apply Hws, Hpart; [lia | exact Hin].
Qed.

(* ================================================================== *)
(** * The claims *)

(** C1 (round-trip), violated by the code.  After [InsertWord "tester"] and
    then [InsertWord "test"], [Search "test"] answers [false]: the split
    leaves the shortened node unmarked.  After inserting "test", "team" and
    then "te", [Search "te"] answers [false] too: the matcher ends on the
    existing branch node "te" with nothing left of the word, and the
    inserter returns as if the word were present. *)
Theorem Search_misses_inserted_prefix :
  Search tree_tester_test (lit "test") = false /\
  Search tree_test_team_te (lit "te") = false.
Proof. split; vm_compute; reflexivity. Qed.

(** C2 (prefix insertion), violated by the code.  After "tester" then "test"
    the split node is the root's only child, is labelled "test", has "er" as
    its only child, and its word-boundary flag is [false]; the older word
    "tester" is still found. *)
Theorem split_node_left_unmarked :
  exists n c,
    deref (Root tree_tester_test) [O] = Some n /\
    Label n = lit "test" /\
    Children n = [c] /\ Label c = lit "er" /\
    IsWordBoundary n = false /\
    Search tree_tester_test (lit "tester") = true.
Proof. do 2 eexists. repeat split; vm_compute; reflexivity. Qed.

(** C3 (prefix cache), violated by the code.  After "test", "testabc",
    "testabd" the node reached through the root's first child and then its
    first child heads a subtree, the labels down to it spell "testab", and
    its [Prefix] is "ab": a split below the root caches the label alone. *)
Theorem Prefix_below_root_is_label_only :
  exists n,
    deref (Root tree_testabc_testabd) [O; O] = Some n /\
    Children n <> [] /\
    labels_along (Root tree_testabc_testabd) [O; O] = Some (lit "testab") /\
    Prefix n = lit "ab".
Proof. eexists. repeat split; try (vm_compute; reflexivity). discriminate. Qed.

(** C4 (suggestion soundness), violated by the code.  On the tree of C3,
    [GetSuggestions "testa"] returns "abc" and "abd", neither of which
    starts with "testa" or was inserted. *)
Theorem GetSuggestions_returns_unstored_words :
  GetSuggestions tree_testabc_testabd (lit "testa") = [lit "abc"; lit "abd"].
Proof. vm_compute; reflexivity. Qed.

(** C5 (suggestion completeness), violated by the code.  On the tree of C3
    the inserted word "testabc" is missing from the suggestions for its
    prefix "testa"; on the tree of C2 the inserted word "test" is missing
    from the suggestions for its prefix "te". *)
Theorem GetSuggestions_misses_inserted_words :
  ~ In (lit "testabc") (GetSuggestions tree_testabc_testabd (lit "testa")) /\
  ~ In (lit "test") (GetSuggestions tree_tester_test (lit "te")).
Proof.
  split; vm_compute; intros H;
    repeat (destruct H as [H|H]; [discriminate H|]); exact H.
Qed.

(** C6 (no unmerged chain), violated by the code.  After "tester" then
    "test" the node labelled "test" is not the root, is not a word boundary
    and has exactly one child. *)
Theorem unmarked_node_with_one_child :
  exists n,
    deref (Root tree_tester_test) [O] = Some n /\
    IsRootNode n = false /\
    IsWordBoundary n = false /\
    List.length (Children n) = 1%nat.
Proof. eexists. repeat split; vm_compute; reflexivity. Qed.

(** C7 (sibling disjointness).  In every tree built by a sequence of
    [InsertWord] calls, the children of every node have non-empty labels, and
    no two of them have labels sharing their first character. *)
Theorem siblings_disjoint_preserved (ws : list gostring) (p : ptr) (n : Node) :
  deref (Root (InsertWords InitTree ws)) p = Some n ->
  siblings_disjoint (Children n).
Proof.
  intros Hd.
  apply heads_distinct_siblings.
  apply every_node_here.
  apply (every_node_deref _ p (Root (InsertWords InitTree ws))); [|exact Hd].
  apply InsertWords_heads_distinct, InitTree_heads_distinct.
Qed.

Lemma siblings_disjoint_preserved_witness :
  exists n,
    deref (Root (InsertWords InitTree [lit "test"; lit "team"; lit "toast"]))
          [O; O] = Some n /\
    siblings_disjoint (Children n).
Proof.
  eexists. split.
  - vm_compute. reflexivity.
  - apply (siblings_disjoint_preserved
             [lit "test"; lit "team"; lit "toast"] [O; O]).
    vm_compute. reflexivity.
Defined.

(** C8 (batch aggregation), violated by the code on the empty batch.  With
    no query, no goroutine sends, [for matches := range ch] blocks on its
    first receive and [GetSuggestionsForSlice] never returns, whatever the
    tree and the map's visiting order; the claimed result would be the empty
    list. *)
Theorem GetSuggestionsForSlice_blocks_without_queries
  (t : Tree) (ranging : stringset -> list gostring) :
  GetSuggestionsForSlice_run [] (map (GetSuggestions t) []) ranging = None /\
  GetSuggestionsForSlice t [] = None.
Proof. split; reflexivity. Qed.

(** C9 (idempotence of insertion).  On every tree built by a sequence of
    [InsertWord] calls, inserting a word a second time leaves the answers of
    [Search] and of [GetSuggestions] to every query as they were after the
    first time. *)
Theorem InsertWord_idempotent (ws : list gostring) (w q : gostring) :
  let t := InsertWords InitTree ws in
  Search (InsertWord (InsertWord t w) w) q = Search (InsertWord t w) q /\
  GetSuggestions (InsertWord (InsertWord t w) w) q =
  GetSuggestions (InsertWord t w) q.
Proof. intros t. now rewrite InsertWord_twice. Qed.

(** C10 (empty query).  On every tree built by a sequence of [InsertWord]
    calls, [GetSuggestions ""] is the sequence [Iter] produces, which is the
    root-to-word-boundary label concatenations in depth-first order with
    children in stored order; the empty string is not among them. *)
Theorem GetSuggestions_empty_query_is_Iter (ws : list gostring) :
  let t := InsertWords InitTree ws in
  GetSuggestions t [] = Iter t /\
  Iter t = stored_words t /\
  ~ In [] (Iter t).
Proof.
  intros t. split; [apply GetSuggestions_empty|].
  split; [apply iter_nodes_dfs|].
  intros Hin.
  assert (Hinv : every_node heads_distinct (Root t))
    by apply InsertWords_heads_distinct, InitTree_heads_distinct.
  destruct (iter_longer _ _ _ Hinv Hin) as [[_ Hb]|Hlt]; [|simpl in Hlt; lia].
  unfold t in Hb. rewrite InsertWords_root_flag in Hb. discriminate.
Qed.

(* ================================================================== *)
(** * Further properties of the code *)

(** ** Predicates on the children of every node *)

Lemma deref_child R ptr : forall n N,
  every_node (children_all R) n ->
  deref n ptr = Some N -> ptr <> [] -> R N.
Proof.
  induction ptr as [|i ptr IH]; intros n N Hn Hd Hp; [congruence|].
  simpl in Hd.
  destruct (nth_error (Children n) i) as [c|] eqn:E; [|discriminate].
  apply every_node_unfold in Hn. destruct Hn as [HR Hall].
  unfold children_all in HR. rewrite Forall_forall in HR, Hall.
  pose proof (nth_error_In _ _ E) as Hc.
  destruct ptr as [|j ptr].
  - simpl in Hd. inversion Hd; subst. now apply HR.
  - apply (IH c); [now apply Hall | exact Hd | discriminate].
Qed.

(** Overwriting a node keeps a predicate on children when the new node
    satisfies it below itself and, if it is a child, as a child; the nodes
    above get a non-empty list of children with one child replaced. *)
Lemma store_children_all (R : Node -> Prop) ptr : forall n old v,
  (forall a cs, cs <> [] -> R a -> R (set_Children cs a)) ->
  every_node (children_all R) n ->
  deref n ptr = Some old ->
  every_node (children_all R) v ->
  (ptr <> [] -> R v) ->
  every_node (children_all R) (store n ptr v).
Proof.
  induction ptr as [|i ptr IH]; intros n old v Hstable Hn Hd Hv HR;
    [exact Hv|].
  simpl in Hd.
  destruct (nth_error (Children n) i) as [c|] eqn:E; [|discriminate].
  destruct (nth_error_split_len _ _ _ E) as (pre & post & Hcs & Hlen).
  rewrite (store_cons n i ptr v pre c post Hcs Hlen).
  apply every_node_unfold in Hn. destruct Hn as [HRn Hall].
  unfold children_all in HRn. rewrite Hcs in HRn, Hall.
  apply Forall_app in HRn. destruct HRn as [HR1 HR2].
  apply Forall_app in Hall. destruct Hall as [Ha1 Ha2].
  inversion HR2 as [|? ? HRc HR3]; subst.
  inversion Ha2 as [|? ? Hac Ha3]; subst.
  assert (Hc' : every_node (children_all R) (store c ptr v)).
  { apply (IH c old); auto. intros _. apply HR. discriminate. }
  assert (HRc' : R (store c ptr v)).
  { destruct ptr as [|j ptr]; [simpl; apply HR; discriminate|].
    simpl in Hd |- *.
    destruct (nth_error (Children c) j) as [d|] eqn:Ej; [|discriminate].
    apply Hstable; [|exact HRc].
    destruct (Children c); [destruct j; discriminate | simpl].
    destruct j; discriminate. }
  apply every_node_unfold. destruct n as [l pf cs b r].
  unfold children_all. cbn [Children set_Children Label Prefix IsWordBoundary IsRootNode].
  split; apply Forall_app; split; auto.
Qed.

Lemma leaf_children_all R l :
  every_node (children_all R) (mkNode l [] [] true false).
Proof. apply every_node_unfold. split; constructor. Qed.

Lemma with_leaf_children_all R N pfx rest :
  R (mkNode rest [] [] true false) ->
  every_node (children_all R) N ->
  every_node (children_all R) (with_leaf N pfx rest).
Proof.
  intros Hleaf HN. apply every_node_unfold in HN. destruct HN as [HR Hall].
  apply every_node_unfold. unfold with_leaf, children_all. cbn [Children].
  split; apply Forall_app; split; auto.
  constructor; [apply leaf_children_all | constructor].
Qed.

Lemma split_at_children_all R N k rest :
  R (mkNode (skipn k rest) [] [] true false) ->
  R (mkNode (skipn k (Label N)) (Label N) (Children N)
            (IsWordBoundary N) false) ->
  every_node (children_all R) N ->
  every_node (children_all R) (split_at N k rest).
Proof.
  intros Hleaf Hold HN. apply every_node_unfold in HN. destruct HN as [HR Hall].
  assert (Ho : every_node (children_all R)
                 (mkNode (skipn k (Label N)) (Label N) (Children N)
                         (IsWordBoundary N) false)).
  { apply every_node_unfold. split; assumption. }
  apply every_node_unfold. unfold split_at, children_all. cbn [Children].
  destruct (skipn k rest) as [|a tl].
  - split; (constructor; [assumption | constructor]).
  - split; (constructor; [assumption |]);
      (constructor; [assumption || apply leaf_children_all | constructor]).
Qed.

(** A predicate on children that the nodes [InsertWord] creates and rewrites
    satisfy holds for the children of every node after [InsertWord]. *)
Lemma InsertWord_children_all (R : Node -> Prop) t w :
  (forall a cs, cs <> [] -> R a -> R (set_Children cs a)) ->
  (forall l, R (mkNode l [] [] true false)) ->
  (forall N pfx rest, R N -> R (with_leaf N pfx rest)) ->
  (forall N k rest, R N -> R (split_at N k rest)) ->
  (forall N k, R N -> R (mkNode (skipn k (Label N)) (Label N) (Children N)
                                (IsWordBoundary N) false)) ->
  every_node (children_all R) (Root t) ->
  every_node (children_all R) (Root (InsertWord t w)).
Proof.
  intros Hstable Hleaf Hwith Hsplit Hold Ht.
  pose proof (find_Walk (Root t) w []) as HW.
  pose proof (Walk_deref _ _ _ _ HW) as Hd.
  pose proof (every_node_deref _ _ _ _ Ht Hd) as HN.
  destruct (InsertWord_cases t w)
    as [(_ & _ & ->) | [(_ & _ & _ & ->) | (Hp & _ & _ & ->)]];
    [exact Ht | |]; cbn [Root].
  - apply (store_children_all R _ _ _ _ Hstable Ht Hd).
    + apply with_leaf_children_all; auto.
    + intros Hp. apply Hwith. apply (deref_child R _ _ _ Ht Hd Hp).
  - pose proof (deref_child R _ _ _ Ht Hd Hp) as HRN.
    apply (store_children_all R _ _ _ _ Hstable Ht Hd).
    + apply split_at_children_all; auto.
    + intros _. now apply Hsplit.
Qed.

(** Leaves are word boundaries. *)
Lemma InsertWord_leaves_marked t w :
  every_node (children_all leaf_marked) (Root t) ->
  every_node (children_all leaf_marked) (Root (InsertWord t w)).
Proof.
  apply InsertWord_children_all; unfold leaf_marked.
  - intros [l pf cs0 b r] cs Hcs _; simpl. congruence.
  - reflexivity.
  - intros N pfx rest _. unfold with_leaf; cbn [Children].
    intros E. apply app_eq_nil in E. destruct E; discriminate.
  - intros N k rest _. unfold split_at; cbn [Children]. discriminate.
  - intros N k H. exact H.
Qed.

Lemma InsertWords_leaves_marked ws : forall t,
  every_node (children_all leaf_marked) (Root t) ->
  every_node (children_all leaf_marked) (Root (InsertWords t ws)).
Proof.
  induction ws as [|w ws IH]; intros t Ht; simpl; [exact Ht|].
  apply IH. now apply InsertWord_leaves_marked.
Qed.

Lemma InitTree_children_all R : every_node (children_all R) (Root InitTree).
Proof. apply every_node_unfold. split; constructor. Qed.

(** Only the root carries the root mark. *)
Lemma InsertWord_not_root t w :
  every_node (children_all not_root) (Root t) ->
  every_node (children_all not_root) (Root (InsertWord t w)).
Proof.
  apply InsertWord_children_all; unfold not_root.
  - intros [l pf cs0 b r] cs _ H. exact H.
  - reflexivity.
  - intros N pfx rest H. exact H.
  - intros N k rest H. exact H.
  - reflexivity.
Qed.

Lemma InsertWords_not_root ws : forall t,
  every_node (children_all not_root) (Root t) ->
  every_node (children_all not_root) (Root (InsertWords t ws)).
Proof.
  induction ws as [|w ws IH]; intros t Ht; simpl; [exact Ht|].
  apply IH. now apply InsertWord_not_root.
Qed.

(** Below a marked-leaves node that is itself a marked leaf or has children,
    the traversal emits at least one word. *)
Lemma iter_nonempty n : forall cw,
  leaf_marked n -> every_node (children_all leaf_marked) n ->
  iter n cw <> [].
Proof.
  induction n as [l pf cs b r IH] using Node_nested_ind; intros cw Hl Hn.
  rewrite iter_unfold. cbn [IsWord IsWordBoundary Children].
  apply every_node_unfold in Hn. destruct Hn as [HR Hall].
  unfold children_all in HR. cbn [Children] in *.
  destruct cs as [|c cs].
  - unfold leaf_marked in Hl. simpl in Hl. rewrite (Hl eq_refl). discriminate.
  - inversion IH as [|? ? IHc _]; inversion HR as [|? ? HRc _];
      inversion Hall as [|? ? Hac _]; subst.
    specialize (IHc (cw ++ Label c) HRc Hac).
    simpl. destruct (iter c (cw ++ Label c)); [congruence|].
    destruct b; discriminate.
Qed.

(** ** Words that the matcher uses up *)

Lemma runner_diverge q : forall l s s',
  (runner q l < List.length q)%nat -> (runner q l < List.length l)%nat ->
  q ++ s <> l ++ s'.
Proof.
  induction q as [|a q IH]; intros [|b l] s s'; simpl; try lia.
  destruct (Ascii.eqb_spec a b) as [->|Hab].
  - intros Hq Hl E. inversion E. apply (IH l s s'); auto; lia.
  - intros _ _ E. inversion E. contradiction.
Qed.

Lemma common_head_runner q l s s' :
  q <> [] -> l <> [] -> q ++ s = l ++ s' -> (0 < runner q l)%nat.
Proof.
  destruct q as [|a q], l as [|b l]; try congruence.
  intros _ _ E. inversion E; subst. simpl. rewrite Ascii.eqb_refl. lia.
Qed.

Lemma Walk_at_start n q p m :
  Walk n q p m -> m_ptr m = [] ->
  m_node m = n /\ m_rest m = q /\ m_prefix m = p /\ m_idx m = -1.
Proof. destruct 1; simpl; try discriminate; auto. Qed.

(** With disjoint siblings, a word emitted below a node and starting with the
    query is emitted below the node the matcher ends on, and the matcher has
    used the query up. *)
Lemma Walk_emitted n q p m s :
  Walk n q p m ->
  every_node heads_distinct n ->
  In (p ++ q ++ s) (iter n p) ->
  (m_idx m = -1 /\ m_rest m = [] /\
   In (p ++ q ++ s) (iter (m_node m) (m_prefix m))) \/
  (m_idx m <> -1 /\ m_idx m = len (m_rest m) /\
   In (p ++ q ++ s) (iter (m_node m) (m_prefix m ++ Label (m_node m)))).
Proof.
  induction 1 as [n q p H | n q p pre c post Hn Hpre H0 H1
                 | n q p pre c post m Hn Hpre H0 H1 HW IH];
    cbn [m_idx m_rest m_node m_prefix under]; intros Hinv Hin.
  - destruct q as [|a q]; [left; auto|]. exfalso.
    destruct (emitted_below_child n ((a :: q) ++ s) p Hinv Hin)
      as (c & s' & Hc & E & Hl & _); [discriminate|].
    unfold misses in H. rewrite Forall_forall in H. specialize (H c Hc).
    pose proof (common_head_runner (a :: q) (Label c) s s') as Hpos.
    rewrite H in Hpos. apply (Nat.lt_irrefl 0), Hpos; auto. discriminate.
  - destruct (runner_pos_hd _ _ H0) as (Hh & Hq & Hl).
    assert (Hqs : q ++ s <> []) by (destruct q; [congruence | discriminate]).
    destruct (emitted_below_child n (q ++ s) p Hinv Hin Hqs)
      as (c' & s' & Hc' & E & Hl' & Hin').
    assert (c' = c).
    { apply (heads_distinct_same_head n); auto.
      - now apply every_node_here.
      - rewrite Hn. apply in_elt.
      - unfold head. rewrite <- Hh.
        rewrite <- (hd_error_app_nonempty (Label c') s' Hl'), <- E.
        now apply hd_error_app_nonempty. }
    subst c'. right.
    pose proof (runner_le_query q (Label c)) as Hle.
    assert (Ek : runner q (Label c) = List.length q).
    { destruct (Nat.eq_dec (runner q (Label c)) (List.length q)); [assumption|].
      exfalso. apply (runner_diverge q (Label c) s s'); auto; lia. }
    repeat split; [lia | unfold len; now rewrite Ek | exact Hin'].
  - destruct (runner_pos_hd _ _ H0) as (Hh & Hq & Hl).
    assert (Hqs : q ++ s <> []) by (destruct q; [congruence | discriminate]).
    destruct (emitted_below_child n (q ++ s) p Hinv Hin Hqs)
      as (c' & s' & Hc' & E & Hl' & Hin').
    assert (c' = c).
    { apply (heads_distinct_same_head n); auto.
      - now apply every_node_here.
      - rewrite Hn. apply in_elt.
      - unfold head. rewrite <- Hh.
        rewrite <- (hd_error_app_nonempty (Label c') s' Hl'), <- E.
        now apply hd_error_app_nonempty. }
    subst c'.
    assert (Ew : (p ++ firstn (runner q (Label c)) q) ++
                 skipn (runner q (Label c)) q ++ s = p ++ q ++ s).
    { rewrite <- app_assoc. f_equal. rewrite app_assoc, firstn_skipn.
      reflexivity. }
    rewrite <- Ew. apply IH.
    + apply every_node_unfold in Hinv. destruct Hinv as [_ Hall].
      rewrite Forall_forall in Hall. apply Hall. rewrite Hn. apply in_elt.
    + rewrite Ew, (runner_full_label _ _ H1). exact Hin'.
Qed.

Lemma skipn_nil_firstn {A} k (l : list A) : skipn k l = [] -> firstn k l = l.
Proof.
  intros H. rewrite <- (firstn_skipn k l) at 2. now rewrite H, app_nil_r.
Qed.

(** [InsertWord] adds no leaf exactly for the empty word and for the words
    that some emitted word starts with. *)
Lemma adds_leaf_false_iff t w :
  every_node heads_distinct (Root t) ->
  every_node (children_all leaf_marked) (Root t) ->
  adds_leaf t w = false <->
  w = [] \/ exists x, In x (Iter t) /\ is_prefix w x.
Proof.
  intros Hinv Hlm.
  pose proof (find_Walk (Root t) w []) as HW.
  pose proof (Walk_word _ _ _ _ HW) as Hword. simpl in Hword.
  pose proof (Walk_deref _ _ _ _ HW) as Hd.
  split.
  - intros Ha.
    destruct (Walk_outcome _ _ _ _ HW) as [[Hi Hm]|(Hp & Hi & Hk)].
    + rewrite (adds_leaf_dead t w Hi) in Ha.
      destruct (m_rest (findMatchedNodeMeta w [] (Root t))) eqn:Hr;
        [|discriminate].
      rewrite app_nil_r in Hword.
      destruct (m_ptr (findMatchedNodeMeta w [] (Root t))) as [|i ptr] eqn:Ep.
      * left. destruct (Walk_at_start _ _ _ _ HW Ep) as (_ & E & _).
        congruence.
      * right.
        assert (Hne : m_ptr (findMatchedNodeMeta w [] (Root t)) <> [])
          by (rewrite Ep; discriminate).
        rewrite <- Ep in Hd.
        pose proof (deref_child _ _ _ _ Hlm Hd Hne) as HlN.
        pose proof (every_node_deref _ _ _ _ Hlm Hd) as HaN.
        pose proof (iter_nonempty _ (m_prefix (findMatchedNodeMeta w [] (Root t)))
                      HlN HaN) as Hnon.
        destruct (iter _ _) as [|x r] eqn:Ei; [congruence|].
        assert (Hx : In x (iter (m_node (findMatchedNodeMeta w [] (Root t)))
                                (m_prefix (findMatchedNodeMeta w [] (Root t)))))
          by (rewrite Ei; now left).
        exists x. split.
        -- now apply (proj1 (Walk_emits_below _ _ _ _ x HW)).
        -- rewrite Hword. exact (iter_extends _ _ _ Hx).
    + rewrite (adds_leaf_partial t w Hi) in Ha.
      set (m := findMatchedNodeMeta w [] (Root t)) in *.
      set (k := runner (m_rest m) (Label (m_node m))) in *.
      destruct (skipn k (m_rest m)) eqn:Hs; [|discriminate].
      right.
      pose proof (deref_child _ _ _ _ Hlm Hd Hp) as HlN.
      pose proof (every_node_deref _ _ _ _ Hlm Hd) as HaN.
      pose proof (iter_nonempty _ (m_prefix m ++ Label (m_node m)) HlN HaN)
        as Hnon.
      destruct (iter _ _) as [|x r] eqn:Ei; [congruence|].
      assert (Hx : In x (iter (m_node m) (m_prefix m ++ Label (m_node m))))
        by (rewrite Ei; now left).
      exists x. split.
      * apply (proj2 (Walk_emits_below _ _ _ _ x HW)); [lia | exact Hx].
      * destruct (iter_extends _ _ _ Hx) as (s & ->).
        exists (skipn k (Label (m_node m)) ++ s).
        rewrite Hword.
        assert (El : Label (m_node m) = m_rest m ++ skipn k (Label (m_node m))).
        { rewrite <- (firstn_skipn k (Label (m_node m))) at 1.
          unfold k at 1. rewrite <- runner_firstn. fold k.
          now rewrite (skipn_nil_firstn _ _ Hs). }
        rewrite El at 1. now rewrite <- !app_assoc.
  - intros [->|(x & Hx & s & ->)].
    + unfold adds_leaf. rewrite find_empty_query. reflexivity.
    + unfold Iter in Hx. change (w ++ s) with ([] ++ w ++ s) in Hx.
      destruct (Walk_emitted _ _ _ _ s HW Hinv Hx)
        as [(Hi & Hr & _)|(Hi & Hl & _)].
      * rewrite (adds_leaf_dead t w Hi), Hr. reflexivity.
      * unfold adds_leaf.
        destruct (Z.eqb_spec (m_idx (findMatchedNodeMeta w [] (Root t))) (-1));
          [congruence|].
        unfold slice_from, gostring_eqb. rewrite Hl. unfold len.
        rewrite Nat2Z.id, skipn_all. reflexivity.
Qed.

(** ** Trees built by insertions *)

Lemma built_heads_distinct ws :
  every_node heads_distinct (Root (InsertWords InitTree ws)).
Proof. apply InsertWords_heads_distinct, InitTree_heads_distinct. Qed.

Lemma built_leaves_marked ws :
  every_node (children_all leaf_marked) (Root (InsertWords InitTree ws)).
Proof. apply InsertWords_leaves_marked, InitTree_children_all. Qed.

Lemma built_not_root ws :
  every_node (children_all not_root) (Root (InsertWords InitTree ws)).
Proof. apply InsertWords_not_root, InitTree_children_all. Qed.

Lemma InsertWords_snoc t ws w :
  InsertWords t (ws ++ [w]) = InsertWord (InsertWords t ws) w.
Proof. unfold InsertWords. now rewrite fold_left_app. Qed.

Lemma Iter_built ws x : In x (Iter (InsertWords InitTree ws)) -> In x ws.
Proof.
  intros H. destruct (Iter_InsertWords ws InitTree x H) as [[]|H']. exact H'.
Qed.

Lemma is_prefix_refl a : is_prefix a a.
Proof. exists []. now rewrite app_nil_r. Qed.

Lemma is_prefix_trans a b c : is_prefix a b -> is_prefix b c -> is_prefix a c.
Proof. intros (s & ->) (s' & ->). exists (s ++ s'). now rewrite app_assoc. Qed.

Lemma is_prefix_nil_r a : is_prefix a [] -> a = [].
Proof. intros (s & E). symmetry in E. now apply app_eq_nil in E. Qed.

(** Every inserted word other than the empty one is the beginning of a word
    the traversal emits. *)
Lemma inserted_spelled ws : forall x,
  In x ws ->
  x = [] \/ exists y, In y (Iter (InsertWords InitTree ws)) /\ is_prefix x y.
Proof.
  induction ws as [|w ws IH] using rev_ind; intros x Hx; [destruct Hx|].
  rewrite InsertWords_snoc.
  apply in_app_or in Hx. destruct Hx as [Hx|[<-|[]]].
  - destruct (IH x Hx) as [->|(y & Hy & Hp)]; [now left|]. right.
    exists y. split; [|exact Hp]. apply Iter_InsertWord. now left.
  - destruct (adds_leaf (InsertWords InitTree ws) w) eqn:Ea.
    + right. exists w. split; [|apply is_prefix_refl].
      apply Iter_InsertWord. now right.
    + apply adds_leaf_false_iff in Ea;
        [|apply built_heads_distinct | apply built_leaves_marked].
      destruct Ea as [->|(y & Hy & Hp)]; [now left|]. right.
      exists y. split; [|exact Hp]. apply Iter_InsertWord. now left.
Qed.

(** [InsertWord] adds a leaf exactly for a non-empty word that no inserted
    word starts with. *)
Lemma adds_leaf_built ws w :
  adds_leaf (InsertWords InitTree ws) w = true <->
  w <> [] /\ forall x, In x ws -> ~ is_prefix w x.
Proof.
  pose proof (adds_leaf_false_iff (InsertWords InitTree ws) w
                (built_heads_distinct ws) (built_leaves_marked ws)) as Hf.
  split.
  - intros Ha.
    assert (Hn : ~ (w = [] \/
                    exists x, In x (Iter (InsertWords InitTree ws)) /\
                              is_prefix w x)).
    { intros H. apply Hf in H. congruence. }
    split; [tauto|].
    intros x Hx Hp. apply Hn.
    destruct (inserted_spelled ws x Hx) as [->|(y & Hy & Hxy)].
    + left. now apply is_prefix_nil_r.
    + right. exists y. split; [exact Hy|]. now apply (is_prefix_trans w x y).
  - intros [Hw Hno].
    apply Bool.not_false_is_true. intros Ea.
    apply Hf in Ea. destruct Ea as [->|(y & Hy & Hp)]; [congruence|].
    exfalso. apply (Hno y); [now apply Iter_built | exact Hp].
Qed.

Lemma is_prefix_le a : forall b, is_prefix a b -> string_le a b.
Proof.
  unfold string_le.
  induction a as [|x a IH]; intros b (s & ->); simpl; [reflexivity|].
  rewrite N.ltb_irrefl, N.eqb_refl. apply IH. now exists s.
Qed.

Lemma sorted_no_prefix_of_earlier ws :
  StronglySorted string_le ws -> ~ In [] ws -> no_prefix_of_earlier ws.
Proof.
  intros Hs Hne pre w post ->.
  split; [intros ->; apply Hne, in_elt|].
  intros x Hx Hp.
  apply string_le_antisym; [|now apply is_prefix_le].
  clear Hne. induction pre as [|a pre IH]; [destruct Hx|].
  simpl in Hs. inversion Hs as [|? ? Hs' Hall]; subst.
  destruct Hx as [->|Hx]; [|now apply IH].
  rewrite Forall_forall in Hall. apply Hall, in_elt.
Qed.

Lemma no_prefix_of_earlier_init ws w :
  no_prefix_of_earlier (ws ++ [w]) -> no_prefix_of_earlier ws.
Proof.
  intros H pre x post ->. apply (H pre x (post ++ [w])).
  now rewrite <- app_assoc.
Qed.

(** Inserted in an order in which no word is the beginning of a different
    earlier word, every word is found. *)
Lemma no_prefix_of_earlier_found ws :
  no_prefix_of_earlier ws ->
  forall w, In w ws -> Search (InsertWords InitTree ws) w = true.
Proof.
  induction ws as [|v ws IH] using rev_ind; intros Hok w Hw; [destruct Hw|].
  pose proof (no_prefix_of_earlier_init _ _ Hok) as Hok'.
  rewrite InsertWords_snoc.
  apply Search_InsertWord; [apply built_heads_distinct|].
  destruct (in_dec (list_eq_dec ascii_dec) w ws) as [Hin|Hnin].
  - left. now apply IH.
  - right. apply in_app_or in Hw. destruct Hw as [Hw|[<-|[]]]; [contradiction|].
    split; [reflexivity|]. apply adds_leaf_built.
    destruct (Hok ws v [] eq_refl) as [Hv Hpre].
    split; [exact Hv|]. intros x Hx Hp.
    apply Hnin. now rewrite <- (Hpre x Hx Hp).
Qed.

(** ** The traversal emits no word twice *)

Lemma iter_below_longer n c cw x :
  every_node heads_distinct n -> In c (Children n) ->
  In x (iter c (cw ++ Label c)) -> (List.length cw < List.length x)%nat.
Proof.
  intros Hn Hc Hx.
  apply every_node_unfold in Hn. destruct Hn as [[Hne _] Hall].
  rewrite Forall_forall in Hne, Hall.
  pose proof (Hne c Hc) as Hl.
  assert (Hlen : (List.length cw < List.length (cw ++ Label c))%nat).
  { rewrite length_app. destruct (Label c); [congruence | simpl; lia]. }
  destruct (iter_longer _ _ _ (Hall c Hc) Hx) as [[-> _]|Hlt]; lia.
Qed.

Lemma iter_NoDup n : forall cw,
  every_node heads_distinct n -> NoDup (iter n cw).
Proof.
  induction n as [l pf cs b r IH] using Node_nested_ind; intros cw Hn.
  rewrite iter_unfold. cbn [IsWord IsWordBoundary Children].
  assert (Hflat : NoDup (flat_map (fun c => iter c (cw ++ Label c)) cs)).
  { apply every_node_unfold in Hn. destruct Hn as [[Hne Hnd] Hall].
    cbn [Children] in *.
    induction cs as [|c cs IHcs]; [constructor|].
    inversion IH as [|? ? IHc IH']; inversion Hne as [|? ? Hlc Hne'];
      inversion Hall as [|? ? Hac Hall']; subst.
    simpl in Hnd. inversion Hnd as [|? ? Hhc Hnd']; subst.
    simpl. apply NoDup_app; auto.
    intros x Hx Hx'. apply Hhc.
    apply in_flat_map in Hx'. destruct Hx' as (c' & Hc' & Hx').
    apply in_map_iff. exists c'. split; [|exact Hc'].
    destruct (iter_extends _ _ _ Hx) as (s & E).
    destruct (iter_extends _ _ _ Hx') as (s' & E').
    rewrite E, <- !app_assoc in E'. apply app_inv_head in E'.
    rewrite Forall_forall in Hne'. pose proof (Hne' c' Hc') as Hlc'.
    unfold head.
    rewrite <- (hd_error_app_nonempty (Label c') s' Hlc'), <- E'.
    now apply hd_error_app_nonempty. }
  destruct b; [|exact Hflat].
  simpl. constructor; [|exact Hflat].
  intros Hin. apply in_flat_map in Hin. destruct Hin as (c & Hc & Hin).
  pose proof (iter_below_longer _ c cw cw Hn Hc Hin). lia.
Qed.

(** ** What [GetSuggestions] returns *)

Lemma GetSuggestions_cases t q :
  let m := findMatchedNodeMeta q [] (Root t) in
  (m_idx m = -1 /\ m_rest m = [] /\ ends_inside_branch t q = false /\
   GetSuggestions t q = iter (m_node m) (m_prefix m)) \/
  (m_idx m = -1 /\ m_rest m <> [] /\ ends_inside_branch t q = false /\
   GetSuggestions t q = []) \/
  (m_idx m <> -1 /\ m_idx m < len (m_rest m) /\
   ends_inside_branch t q = false /\ GetSuggestions t q = []) \/
  (m_idx m <> -1 /\ m_idx m = len (m_rest m) /\
   ends_inside_branch t q = false /\
   GetSuggestions t q = iter (m_node m) (m_prefix m ++ Label (m_node m))) \/
  (m_idx m <> -1 /\ m_idx m = len (m_rest m) /\
   ends_inside_branch t q = true /\
   GetSuggestions t q = iter (m_node m) (Prefix (m_node m))).
Proof.
  intros m. unfold ends_inside_branch, GetSuggestions. fold m.
  pose proof (find_Walk (Root t) q []) as HW. fold m in HW.
  destruct (Walk_outcome _ _ _ _ HW) as [[Hi Hm]|(Hp & Hi & Hk)].
  - rewrite Hi. destruct (m_rest m) as [|a r] eqn:Hr.
    + left. repeat split; auto.
    + right; left. repeat split; auto; try discriminate.
  - set (k := runner (m_rest m) (Label (m_node m))) in *.
    pose proof (runner_le_query (m_rest m) (Label (m_node m))) as Hle.
    fold k in Hle. rewrite Hi. unfold len.
    destruct (Z.gtb_spec (Z.of_nat k) 0); [|lia].
    destruct (Z.ltb_spec (Z.of_nat k) (Z.of_nat (List.length (Label (m_node m)))));
      [|lia].
    destruct (Z.gtb_spec (Z.of_nat (List.length (m_rest m))) 0); [|lia].
    destruct (Z.ltb_spec (Z.of_nat k) (Z.of_nat (List.length (m_rest m))))
      as [Hlt|Hge].
    + right; right; left. cbn [andb].
      destruct (Z.eqb_spec (Z.of_nat k) (Z.of_nat (List.length (m_rest m))));
        [lia|].
      repeat split; auto; lia.
    + destruct (Z.eqb_spec (Z.of_nat k) (Z.of_nat (List.length (m_rest m))));
        [|lia].
      cbn [andb]. destruct (IsLeaf (m_node m)); cbn [negb].
      * right; right; right; left. repeat split; auto; lia.
      * right; right; right; right. repeat split; auto; lia.
Qed.

(** A query used up inside a label is the beginning of the path through that
    label. *)
Lemma inside_label_prefix n q p m :
  Walk n q p m -> m_idx m <> -1 -> m_idx m = len (m_rest m) ->
  is_prefix (p ++ q) (m_prefix m ++ Label (m_node m)).
Proof.
  intros HW Hi Hl.
  pose proof (Walk_word _ _ _ _ HW) as Hword.
  destruct (Walk_outcome _ _ _ _ HW) as [[Hi' _]|(_ & Hi' & Hk)];
    [congruence|].
  set (k := runner (m_rest m) (Label (m_node m))) in *.
  assert (Ek : k = List.length (m_rest m)) by (unfold len in Hl; lia).
  exists (skipn k (Label (m_node m))). rewrite Hword, <- app_assoc. f_equal.
  rewrite <- (firstn_skipn k (Label (m_node m))) at 1. f_equal.
  unfold k. rewrite <- runner_firstn. fold k. rewrite Ek. apply firstn_all.
Qed.

Lemma store_IsRootNode n p v :
  p <> [] -> IsRootNode (store n p v) = IsRootNode n.
Proof.
  destruct p as [|i p]; [congruence|]. intros _. simpl.
  destruct (nth_error (Children n) i); destruct n; reflexivity.
Qed.

Lemma InsertWord_root_mark t w :
  IsRootNode (Root (InsertWord t w)) = IsRootNode (Root t).
Proof.
  pose proof (Walk_deref _ _ _ _ (find_Walk (Root t) w [])) as Hd.
  destruct (InsertWord_cases t w)
    as [(_ & _ & ->) | [(_ & _ & _ & ->) | (Hp & _ & _ & ->)]];
    [reflexivity | |]; cbn [Root].
  - destruct (m_ptr (findMatchedNodeMeta w [] (Root t))) as [|i pth].
    + simpl in *. now inversion Hd.
    + apply store_IsRootNode. discriminate.
  - now apply store_IsRootNode.
Qed.

Lemma InsertWords_root_mark ws : forall t,
  IsRootNode (Root (InsertWords t ws)) = IsRootNode (Root t).
Proof.
  induction ws as [|w ws IH]; intros t; simpl; [reflexivity|].
  change (fold_left InsertWord ws (InsertWord t w))
    with (InsertWords (InsertWord t w) ws).
  now rewrite IH, InsertWord_root_mark.
Qed.

Lemma InsertWords_app t ws ws' :
  InsertWords t (ws ++ ws') = InsertWords (InsertWords t ws) ws'.
Proof. unfold InsertWords. now rewrite fold_left_app. Qed.

Lemma Search_kept_InsertWords ws' : forall t q,
  every_node heads_distinct (Root t) ->
  Search t q = true -> Search (InsertWords t ws') q = true.
Proof.
  induction ws' as [|w ws' IH]; intros t q Hinv H; simpl; [exact H|].
  apply IH; [now apply InsertWord_heads_distinct|].
  apply Search_InsertWord; auto.
Qed.

Lemma is_prefixb_spec a : forall b, is_prefixb a b = true <-> is_prefix a b.
Proof.
  induction a as [|x a IH]; intros [|y b]; simpl.
  - split; [intros _; now exists [] | reflexivity].
  - split; [intros _; now exists (y :: b) | reflexivity].
  - split; [discriminate | intros (s & E); discriminate].
  - rewrite andb_true_iff, IH. split.
    + intros [E (s & ->)]. apply Ascii.eqb_eq in E. subst. now exists s.
    + intros (s & E). inversion E; subst. split; [apply Ascii.eqb_refl|].
      now exists s.
Qed.

Lemma may_follow_sound seen w :
  may_follow seen w = true ->
  w <> [] /\ forall x, In x seen -> is_prefix w x -> x = w.
Proof.
  unfold may_follow. rewrite andb_true_iff, forallb_forall.
  intros [Hw Hall]. split.
  - intros ->. discriminate.
  - intros x Hx Hp. specialize (Hall x Hx).
    apply orb_true_iff in Hall. destruct Hall as [H|H].
    + apply is_prefixb_spec in Hp. rewrite Hp in H. discriminate.
    + now apply gostring_eqb_eq.
Qed.

Lemma no_prefix_of_earlierb_sound ws : forall seen,
  no_prefix_of_earlierb seen ws = true ->
  forall pre w post,
    ws = pre ++ w :: post ->
    w <> [] /\ forall x, In x seen \/ In x pre -> is_prefix w x -> x = w.
Proof.
  induction ws as [|v ws IH]; intros seen H pre w post E;
    [destruct pre; discriminate|].
  simpl in H. apply andb_true_iff in H. destruct H as [Hv Hrest].
  destruct pre as [|a pre]; simpl in E; inversion E; subst.
  - destruct (may_follow_sound _ _ Hv) as [Hw Hall].
    split; [exact Hw|]. intros x [Hx|[]]. now apply Hall.
  - destruct (IH _ Hrest pre w post eq_refl) as [Hw Hall].
    split; [exact Hw|]. intros x Hx. apply Hall.
    simpl in *. tauto.
Qed.

(** Where the cached prefix is not read, or is right, [GetSuggestions]
    returns the emitted words that start with the query. *)
Lemma GetSuggestions_iff t q x :
  every_node heads_distinct (Root t) ->
  (ends_inside_branch t q = true -> cached_prefix_right t q) ->
  In x (GetSuggestions t q) <-> In x (Iter t) /\ is_prefix q x.
Proof.
  intros Hinv Hc. unfold cached_prefix_right in Hc.
  pose proof (find_Walk (Root t) q []) as HW.
  pose proof (Walk_word _ _ _ _ HW) as Hword. simpl in Hword.
  destruct (Walk_emits_below _ _ _ _ x HW) as [Hdead Hpart].
  pose proof (inside_label_prefix _ _ _ _ HW) as Hin. simpl in Hin.
  unfold Iter.
  destruct (GetSuggestions_cases t q)
    as [(Hi & Hr & He & ->) | [(Hi & Hr & He & ->) | [(Hi & Hl & He & ->) |
        [(Hi & Hl & He & ->) | (Hi & Hl & He & ->)]]]].
  - split.
    + intros Hx. split; [now apply Hdead|].
      rewrite Hr, app_nil_r in Hword. rewrite Hword.
      exact (iter_extends _ _ _ Hx).
    + intros [Hx (s & ->)]. change (q ++ s) with ([] ++ q ++ s) in Hx.
      destruct (Walk_emitted _ _ _ _ s HW Hinv Hx)
        as [(_ & _ & H)|(Hi' & _)]; [exact H | congruence].
  - split; [intros []|].
    intros [Hx (s & ->)]. change (q ++ s) with ([] ++ q ++ s) in Hx.
    destruct (Walk_emitted _ _ _ _ s HW Hinv Hx)
      as [(_ & Hr' & _)|(Hi' & _)]; congruence.
  - split; [intros []|].
    intros [Hx (s & ->)]. change (q ++ s) with ([] ++ q ++ s) in Hx.
    destruct (Walk_emitted _ _ _ _ s HW Hinv Hx)
      as [(Hi' & _)|(_ & Hl' & _)]; [congruence | lia].
  - split.
    + intros Hx. split; [now apply Hpart|].
      apply (is_prefix_trans _ _ _ (Hin Hi Hl)). exact (iter_extends _ _ _ Hx).
    + intros [Hx (s & ->)]. change (q ++ s) with ([] ++ q ++ s) in Hx.
      destruct (Walk_emitted _ _ _ _ s HW Hinv Hx)
        as [(Hi' & _)|(_ & _ & H)]; [congruence | exact H].
  - rewrite (Hc He). split.
    + intros Hx. split; [now apply Hpart|].
      apply (is_prefix_trans _ _ _ (Hin Hi Hl)). exact (iter_extends _ _ _ Hx).
    + intros [Hx (s & ->)]. change (q ++ s) with ([] ++ q ++ s) in Hx.
      destruct (Walk_emitted _ _ _ _ s HW Hinv Hx)
        as [(Hi' & _)|(_ & _ & H)]; [congruence | exact H].
Qed.

Lemma GetSuggestions_NoDup t q :
  every_node heads_distinct (Root t) -> NoDup (GetSuggestions t q).
Proof.
  intros Hinv.
  pose proof (Walk_deref _ _ _ _ (find_Walk (Root t) q [])) as Hd.
  pose proof (every_node_deref _ _ _ _ Hinv Hd) as HN.
  destruct (GetSuggestions_cases t q)
    as [(_ & _ & _ & ->) | [(_ & _ & _ & ->) | [(_ & _ & _ & ->) |
        [(_ & _ & _ & ->) | (_ & _ & _ & ->)]]]];
    try constructor; now apply iter_NoDup.
Qed.

Lemma nothing_in_nil {A} (l : list A) : (forall x, ~ In x l) -> l = [].
Proof. destruct l as [|a l]; [reflexivity|]. intros H. destruct (H a). now left. Qed.

Lemma GetSuggestions_none ws q :
  (forall x, In x ws -> ~ is_prefix q x) ->
  GetSuggestions (InsertWords InitTree ws) q = [].
Proof.
  intros Hno. set (t := InsertWords InitTree ws).
  pose proof (built_heads_distinct ws) as Hinv. fold t in Hinv.
  pose proof (built_leaves_marked ws) as Hlm. fold t in Hlm.
  destruct (ends_inside_branch t q) eqn:He.
  - exfalso.
    pose proof (find_Walk (Root t) q []) as HW.
    pose proof (Walk_deref _ _ _ _ HW) as Hd.
    destruct (GetSuggestions_cases t q)
      as [(_ & _ & He' & _) | [(_ & _ & He' & _) | [(_ & _ & He' & _) |
          [(_ & _ & He' & _) | (Hi & Hl & _ & _)]]]]; try congruence.
    pose proof (Walk_ptr_nonempty _ _ _ _ HW Hi) as Hp.
    pose proof (deref_child _ _ _ _ Hlm Hd Hp) as HlN.
    pose proof (every_node_deref _ _ _ _ Hlm Hd) as HaN.
    pose proof (iter_nonempty _
                  (m_prefix (findMatchedNodeMeta q [] (Root t)) ++
                   Label (m_node (findMatchedNodeMeta q [] (Root t))))
                  HlN HaN) as Hnon.
    destruct (iter _ _) as [|y r] eqn:Ei; [congruence|].
    assert (Hy : In y (iter (m_node (findMatchedNodeMeta q [] (Root t)))
                  (m_prefix (findMatchedNodeMeta q [] (Root t)) ++
                   Label (m_node (findMatchedNodeMeta q [] (Root t))))))
      by (rewrite Ei; now left).
    apply (Hno y).
    + apply Iter_built. apply (proj2 (Walk_emits_below _ _ _ _ y HW) Hi Hy).
    + apply (is_prefix_trans _ _ _ (inside_label_prefix _ _ _ _ HW Hi Hl)).
      exact (iter_extends _ _ _ Hy).
  - apply nothing_in_nil. intros x Hx.
    apply (GetSuggestions_iff t q x Hinv) in Hx; [|congruence].
    destruct Hx as [Hx Hp]. apply (Hno x); [now apply Iter_built | exact Hp].
Qed.

(** The emitted words after [InsertWord], in order: the new word is put in
    at one place, or nothing changes. *)
Lemma Iter_InsertWord_order t w :
  exists A B,
    Iter t = A ++ B /\
    Iter (InsertWord t w) =
      A ++ (if adds_leaf t w then [w] else []) ++ B.
Proof.
  pose proof (find_Walk (Root t) w []) as HW.
  pose proof (Walk_word _ _ _ _ HW) as Hword. simpl in Hword.
  unfold Iter.
  destruct (InsertWord_cases t w)
    as [(Hi & Hr & ->) | [(Hi & Hr & Hm & ->) | (Hp & Hi & Hk & ->)]].
  - rewrite (adds_leaf_dead t w Hi), Hr.
    exists (iter (Root t) []), []. now rewrite !app_nil_r.
  - rewrite (adds_leaf_dead t w Hi).
    destruct (iter_store_dead _ _ _ _ HW Hi) as (A & B & E & Ev).
    cbn [Root]. rewrite Ev by reflexivity. rewrite E, iter_with_leaf.
    rewrite <- Hword.
    destruct (m_rest (findMatchedNodeMeta w [] (Root t))); [congruence|].
    eexists (A ++ iter _ _), B. rewrite <- !app_assoc. split; reflexivity.
  - rewrite (adds_leaf_partial t w Hi).
    assert (Hne : m_idx (findMatchedNodeMeta w [] (Root t)) <> -1) by lia.
    destruct (iter_store_partial _ _ _ _ HW Hne) as (A & B & E & Ev).
    cbn [Root]. rewrite Ev. rewrite E.
    change (Label (split_at ?N ?k ?r)) with (firstn k r).
    rewrite iter_split_at, <- Hword.
    eexists (A ++ iter _ _), B. rewrite <- !app_assoc.
    destruct (skipn _ (m_rest (findMatchedNodeMeta w [] (Root t))));
      split; reflexivity.
Qed.

(** What [GetSuggestions] returns sits in one piece inside what [Iter]
    yields, where the cached prefix is not read or is right. *)
Lemma GetSuggestions_segment t q :
  (ends_inside_branch t q = true -> cached_prefix_right t q) ->
  GetSuggestions t q = [] \/
  exists A B, Iter t = A ++ GetSuggestions t q ++ B.
Proof.
  intros Hc. unfold cached_prefix_right in Hc.
  pose proof (find_Walk (Root t) q []) as HW.
  unfold Iter.
  destruct (GetSuggestions_cases t q)
    as [(Hi & Hr & He & ->) | [(Hi & Hr & He & ->) | [(Hi & Hl & He & ->) |
        [(Hi & Hl & He & ->) | (Hi & Hl & He & ->)]]]]; auto; right.
  - destruct (iter_store_dead _ _ _ _ HW Hi) as (A & B & E & _). eauto.
  - destruct (iter_store_partial _ _ _ _ HW Hi) as (A & B & E & _). eauto.
  - rewrite (Hc He).
    destruct (iter_store_partial _ _ _ _ HW Hi) as (A & B & E & _). eauto.
Qed.

Lemma filter_nothing {A} (P : A -> bool) l :
  (forall x, In x l -> P x = false) -> filter P l = [].
Proof.
  induction l as [|a l IH]; intros H; simpl; [reflexivity|].
  rewrite (H a) by now left. apply IH. intros x Hx. apply H. now right.
Qed.

Lemma filter_everything {A} (P : A -> bool) l :
  (forall x, In x l -> P x = true) -> filter P l = l.
Proof.
  induction l as [|a l IH]; intros H; simpl; [reflexivity|].
  rewrite (H a) by now left. f_equal. apply IH. intros x Hx. apply H. now right.
Qed.

Lemma NoDup_app_disjoint {A} (l l' : list A) :
  NoDup (l ++ l') -> forall x, In x l -> In x l' -> False.
Proof.
  induction l as [|a l IH]; intros Hnd x Hx Hx'; [destruct Hx|].
  simpl in Hnd. inversion Hnd as [|? ? Ha Hnd']; subst.
  destruct Hx as [->|Hx]; [|now apply (IH Hnd' x)].
  apply Ha, in_or_app. now right.
Qed.

(** A piece of a duplicate-free list holding all elements that satisfy a test
    is what the test filters out of the list. *)
Lemma filter_segment {A} (P : A -> bool) (Al G Bl : list A) :
  NoDup (Al ++ G ++ Bl) ->
  (forall x, In x G <-> In x (Al ++ G ++ Bl) /\ P x = true) ->
  filter P (Al ++ G ++ Bl) = G.
Proof.
  intros Hnd HG.
  assert (Hout : forall x, In x Al \/ In x Bl -> P x = false).
  { intros x Hx. destruct (P x) eqn:E; [exfalso | reflexivity].
    assert (HxG : In x G).
    { apply HG. split; [|exact E]. rewrite !in_app_iff. tauto. }
    destruct Hx as [Hx|Hx].
    - apply (NoDup_app_disjoint _ _ Hnd x Hx). apply in_or_app. now left.
    - apply NoDup_app_remove_l in Hnd.
      exact (NoDup_app_disjoint _ _ Hnd x HxG Hx). }
  rewrite !filter_app.
  rewrite (filter_nothing P Al), (filter_nothing P Bl), app_nil_r by auto.
  simpl. apply filter_everything. intros x Hx. now apply HG.
Qed.

(** In order: the suggestions are the emitted words that start with the
    query. *)
Lemma GetSuggestions_filter t q :
  every_node heads_distinct (Root t) ->
  (ends_inside_branch t q = true -> cached_prefix_right t q) ->
  GetSuggestions t q = filter (is_prefixb q) (Iter t).
Proof.
  intros Hinv Hc.
  assert (HG : forall x, In x (GetSuggestions t q) <->
                         In x (Iter t) /\ is_prefixb q x = true).
  { intros x. rewrite is_prefixb_spec. now apply GetSuggestions_iff. }
  destruct (GetSuggestions_segment t q Hc) as [E|(A & B & E)].
  - rewrite E in *. symmetry. apply filter_nothing.
    intros x Hx. destruct (is_prefixb q x) eqn:Ep; [|reflexivity].
    exfalso. apply (proj2 (HG x)). now split.
  - symmetry. rewrite E at 1. apply filter_segment.
    + rewrite <- E. now apply iter_NoDup.
    + intros x. rewrite <- E. apply HG.
Qed.

(** The children of the root that have children cache their label, which is
    the path down to them. *)
Lemma Walk_at_child n q p m i :
  Walk n q p m -> m_ptr m = [i] ->
  nth_error (Children n) i = Some (m_node m) /\
  (m_idx m = -1 -> m_prefix m = p ++ Label (m_node m)) /\
  (m_idx m <> -1 -> m_prefix m = p).
Proof.
  intros HW Hp.
  inversion HW as [| n0 q0 p0 pre c post Hn Hpre H0 H1
                   | n0 q0 p0 pre c post m0 Hn Hpre H0 H1 HW0];
    subst; simpl in Hp; [discriminate | |];
    inversion Hp; subst; cbn [m_node m_idx m_prefix under].
  - repeat split.
    + rewrite Hn, nth_error_app2, Nat.sub_diag by lia. reflexivity.
    + lia.
  - match goal with H : m_ptr m0 = [] |- _ =>
      destruct (Walk_at_start _ _ _ _ HW0 H) as (E1 & _ & E3 & E4) end.
    rewrite E1, E3. repeat split.
    + rewrite Hn, nth_error_app2, Nat.sub_diag by lia. reflexivity.
    + intros _. now rewrite (runner_full_label _ _ H1).
    + congruence.
Qed.

Lemma deref_has_children c j ptr N :
  deref c (j :: ptr) = Some N -> Children c <> [].
Proof.
  simpl. destruct (Children c); [destruct j; discriminate | discriminate].
Qed.

Lemma store_below_keeps c j ptr v :
  Label (store c (j :: ptr) v) = Label c /\
  Prefix (store c (j :: ptr) v) = Prefix c.
Proof.
  simpl. destruct (nth_error (Children c) j); destruct c; split; reflexivity.
Qed.

Lemma InsertWord_first_level t w :
  children_all caches_label (Root t) ->
  children_all caches_label (Root (InsertWord t w)).
Proof.
  intros Ht.
  pose proof (find_Walk (Root t) w []) as HW.
  pose proof (Walk_deref _ _ _ _ HW) as Hd.
  set (m := findMatchedNodeMeta w [] (Root t)) in *.
  assert (Hstore : forall v,
            (forall i, m_ptr m = [i] -> caches_label v) ->
            (m_ptr m = [] -> children_all caches_label v) ->
            children_all caches_label (store (Root t) (m_ptr m) v)).
  { intros v Hone Hzero.
    destruct (m_ptr m) as [|i ptr] eqn:Ep; [now apply Hzero|].
    simpl in Hd.
    destruct (nth_error (Children (Root t)) i) as [c|] eqn:E; [|discriminate].
    destruct (nth_error_split_len _ _ _ E) as (pre & post & Hcs & Hlen).
    rewrite (store_cons (Root t) i ptr v pre c post Hcs Hlen).
    unfold children_all in *. rewrite Hcs in Ht.
    apply Forall_app in Ht. destruct Ht as [H1 H2].
    inversion H2 as [|? ? Hc H3]; subst.
    destruct (Root t) as [l pf cs b r]. cbn [Children set_Children].
    apply Forall_app; split; [exact H1|]. constructor; [|exact H3].
    destruct ptr as [|j ptr]; [now apply (Hone (List.length pre))|].
    destruct (store_below_keeps c j ptr v) as [El Ep'].
    intros _. rewrite El, Ep'. apply Hc.
    exact (deref_has_children _ _ _ _ Hd). }
  destruct (InsertWord_cases t w)
    as [(_ & _ & ->) | [(Hi & _ & _ & ->) | (Hp & Hi & _ & ->)]];
    [exact Ht | |]; cbn [Root]; fold m; apply Hstore.
  - intros i Ep _. unfold with_leaf; cbn [Prefix Label].
    destruct (Walk_at_child _ _ _ _ i HW Ep) as (_ & H & _).
    exact (H Hi).
  - intros Ep. destruct (Walk_at_start _ _ _ _ HW Ep) as (-> & _).
    unfold children_all, with_leaf in *. cbn [Children].
    apply Forall_app; split; [exact Ht|].
    constructor; [|constructor]. intros H. now destruct H.
  - intros i _ _. reflexivity.
  - intros Ep. fold m in Hp. congruence.
Qed.

Lemma built_first_level ws :
  children_all caches_label (Root (InsertWords InitTree ws)).
Proof.
  assert (H : forall t, children_all caches_label (Root t) ->
                        children_all caches_label (Root (InsertWords t ws))).
  { induction ws as [|w ws IH]; intros t Ht; simpl; [exact Ht|].
    apply IH. now apply InsertWord_first_level. }
  apply H. constructor.
Qed.

(** A query whose matched node is the root or a child of the root never
    reads a wrong cached prefix. *)
Lemma first_level_cached_right ws q :
  (List.length (m_ptr (findMatchedNodeMeta q [] (Root (InsertWords InitTree ws))))
   <= 1)%nat ->
  ends_inside_branch (InsertWords InitTree ws) q = true ->
  cached_prefix_right (InsertWords InitTree ws) q.
Proof.
  set (t := InsertWords InitTree ws). intros Hlen He.
  pose proof (find_Walk (Root t) q []) as HW.
  unfold cached_prefix_right. fold t.
  set (m := findMatchedNodeMeta q [] (Root t)) in *.
  assert (Hi : m_idx m <> -1).
  { unfold ends_inside_branch in He. fold t m in He.
    intros E. rewrite E in He. discriminate. }
  assert (Hnl : Children (m_node m) <> []).
  { unfold ends_inside_branch in He. fold t m in He.
    apply andb_prop in He. destruct He as [_ He].
    unfold IsLeaf, len in He. intros E. rewrite E in He. discriminate. }
  pose proof (Walk_ptr_nonempty _ _ _ _ HW Hi) as Hp.
  destruct (m_ptr m) as [|i [|j ptr]] eqn:Ep; [congruence | | simpl in Hlen; lia].
  destruct (Walk_at_child _ _ _ _ i HW Ep) as (Hn & _ & Hpre).
  rewrite (Hpre Hi). simpl.
  pose proof (built_first_level ws) as Hfl. fold t in Hfl.
  unfold children_all in Hfl. rewrite Forall_forall in Hfl.
  apply (Hfl _ (nth_error_In _ _ Hn)). exact Hnl.
Qed.

(** ** Bytes held by the labels *)

Lemma label_bytes_unfold n :
  label_bytes n = list_sum (map weight (Children n)).
Proof. destruct n; reflexivity. Qed.

Lemma list_sum_middle pre (x : nat) post :
  list_sum (pre ++ x :: post) = (list_sum pre + x + list_sum post)%nat.
Proof. rewrite list_sum_app. simpl. lia. Qed.

(** Overwriting a node changes the bytes held below the tree by the change
    in weight of that node. *)
Lemma store_label_bytes ptr : forall n old v,
  deref n ptr = Some old -> ptr <> [] ->
  (label_bytes (store n ptr v) + weight old = label_bytes n + weight v)%nat.
Proof.
  induction ptr as [|i ptr IH]; intros n old v Hd Hp; [congruence|].
  simpl in Hd.
  destruct (nth_error (Children n) i) as [c|] eqn:E; [|discriminate].
  destruct (nth_error_split_len _ _ _ E) as (pre & post & Hcs & Hlen).
  rewrite (store_cons n i ptr v pre c post Hcs Hlen).
  rewrite (label_bytes_unfold n), Hcs.
  rewrite label_bytes_unfold.
  replace (Children (set_Children (pre ++ store c ptr v :: post) n))
    with (pre ++ store c ptr v :: post) by (destruct n; reflexivity).
  rewrite !map_app. simpl map. rewrite !list_sum_middle.
  destruct ptr as [|j ptr].
  - simpl in Hd |- *. inversion Hd; subst. lia.
  - assert (Hne : j :: ptr <> []) by discriminate.
    pose proof (IH c old v Hd Hne) as HI.
    assert (E1 : weight (store c (j :: ptr) v) =
                 (List.length (Label c) + label_bytes (store c (j :: ptr) v))%nat)
      by (unfold weight; now rewrite (store_Label c (j :: ptr) v Hne)).
    assert (E2 : weight c = (List.length (Label c) + label_bytes c)%nat)
      by reflexivity.
    rewrite E1, E2. lia.
Qed.

Lemma weight_with_leaf N pfx rest :
  weight (with_leaf N pfx rest) = (weight N + List.length rest)%nat /\
  label_bytes (with_leaf N pfx rest) = (label_bytes N + List.length rest)%nat.
Proof.
  assert (E : label_bytes (with_leaf N pfx rest) =
              (label_bytes N + List.length rest)%nat).
  { rewrite (label_bytes_unfold (with_leaf N pfx rest)), (label_bytes_unfold N).
    unfold with_leaf. cbn [Children]. rewrite map_app, list_sum_app.
    simpl. unfold weight at 2. simpl. lia. }
  split; [|exact E]. unfold weight. rewrite E. unfold with_leaf. simpl. lia.
Qed.

Lemma weight_split_at N k rest :
  (k <= List.length rest)%nat -> (k <= List.length (Label N))%nat ->
  weight (split_at N k rest) = (weight N + (List.length rest - k))%nat.
Proof.
  intros Hr Hl. unfold weight.
  rewrite (label_bytes_unfold (split_at N k rest)).
  unfold split_at. cbn [Children Label].
  rewrite length_firstn, Nat.min_l by exact Hr.
  assert (Ho : weight (mkNode (skipn k (Label N)) (Label N) (Children N)
                              (IsWordBoundary N) false) =
               (List.length (Label N) - k + label_bytes N)%nat).
  { unfold weight. cbn [Label]. rewrite length_skipn.
    rewrite (label_bytes_unfold (mkNode _ _ _ _ _)), (label_bytes_unfold N).
    reflexivity. }
  destruct (skipn k rest) as [|a tl] eqn:Hs.
  - apply (f_equal (@List.length ascii)) in Hs. rewrite length_skipn in Hs.
    simpl in Hs. cbn [map list_sum fold_right]. rewrite Ho. lia.
  - apply (f_equal (@List.length ascii)) in Hs. rewrite length_skipn in Hs.
    cbn [map list_sum fold_right]. rewrite Ho.
    assert (Et : weight (mkNode (a :: tl) [] [] true false) =
                 List.length (a :: tl)) by (unfold weight; simpl; lia).
    rewrite Et. lia.
Qed.

(** [InsertWord] adds to the labels no more bytes than the word has, and
    takes none away. *)
Lemma InsertWord_label_bytes t w :
  (label_bytes (Root t) <= label_bytes (Root (InsertWord t w))
   <= label_bytes (Root t) + List.length w)%nat.
Proof.
  pose proof (find_Walk (Root t) w []) as HW.
  pose proof (Walk_deref _ _ _ _ HW) as Hd.
  pose proof (Walk_word _ _ _ _ HW) as Hword. simpl in Hword.
  set (m := findMatchedNodeMeta w [] (Root t)) in *.
  assert (Hlen : (List.length (m_rest m) <= List.length w)%nat).
  { rewrite Hword, length_app. lia. }
  destruct (InsertWord_cases t w)
    as [(_ & _ & ->) | [(Hi & _ & _ & ->) | (Hp & Hi & Hk & ->)]];
    [lia | |]; cbn [Root]; fold m.
  - destruct (weight_with_leaf (m_node m) (m_prefix m) (m_rest m)) as [Ew El].
    destruct (m_ptr m) as [|i ptr] eqn:Ep.
    + change (store (Root t) [] (with_leaf (m_node m) (m_prefix m) (m_rest m)))
        with (with_leaf (m_node m) (m_prefix m) (m_rest m)).
      assert (E : Root t = m_node m) by (simpl in Hd; congruence).
      rewrite El, <- E. lia.
    + assert (Hne : i :: ptr <> []) by discriminate.
      pose proof (store_label_bytes _ _ _
                    (with_leaf (m_node m) (m_prefix m) (m_rest m)) Hd Hne).
      lia.
  - fold m in Hp, Hk.
    pose proof (runner_le_query (m_rest m) (Label (m_node m))) as Hle.
    pose proof (weight_split_at (m_node m)
                  (runner (m_rest m) (Label (m_node m))) (m_rest m) Hle) as Ew.
    pose proof (store_label_bytes _ _ _
                  (split_at (m_node m) (runner (m_rest m) (Label (m_node m)))
                            (m_rest m)) Hd Hp).
    lia.
Qed.

(* ------------------------------------------------------------------ *)
(** ** The matcher *)

(** X1.  [findMatchedNodeMeta] loses nothing of the query: the prefix it
    returns followed by the rest it returns is the prefix it was given
    followed by the query. *)
Theorem matcher_keeps_the_query (n : Node) (q p : gostring) :
  let m := findMatchedNodeMeta q p n in
  m_prefix m ++ m_rest m = p ++ q.
Proof. intros m. symmetry. apply Walk_word with (n := n). apply find_Walk. Qed.

(** X2.  The index [findMatchedNodeMeta] returns is either the sentinel
    [-1] or lies strictly inside the matched node's label and within the
    returned rest; there the label and the rest agree on their first
    [matchedIdx] bytes, so the two halves a split makes of the label spell
    the old label.  The slices [InsertWord] takes are therefore in range. *)
Theorem matcher_index_in_range (n : Node) (q p : gostring) :
  let m := findMatchedNodeMeta q p n in
  m_idx m = -1 \/
  (0 < m_idx m < len (Label (m_node m)) /\
   m_idx m <= len (m_rest m) /\
   slice_to (m_rest m) (m_idx m) ++ slice_from (Label (m_node m)) (m_idx m)
   = Label (m_node m)).
Proof.
  intros m.
  destruct (Walk_outcome _ _ _ _ (find_Walk n q p)) as [[Hi _]|(_ & Hi & Hk)];
    fold m in Hi |- *; [now left | right].
  fold m in Hk.
  pose proof (runner_le_query (m_rest m) (Label (m_node m))) as Hle.
  rewrite Hi. unfold len, slice_to, slice_from. rewrite Nat2Z.id.
  repeat split; try lia.
  rewrite runner_firstn. apply firstn_skipn.
Qed.

(* ------------------------------------------------------------------ *)
(** ** The empty tree and the empty word *)

(** X3.  On the tree [InitTree] returns, [Search] answers [false] and
    [GetSuggestions] returns nothing for every query, and [Iter] yields
    nothing. *)
Theorem empty_tree_holds_nothing (q : gostring) :
  Search InitTree q = false /\
  GetSuggestions InitTree q = [] /\
  Iter InitTree = [].
Proof.
  split; [|split]; try reflexivity.
  - unfold Search. cbn. apply andb_false_r.
  - unfold GetSuggestions. cbn.
    destruct ((-1 <? len q) && (len q >? 0)); reflexivity.
Qed.

(** X4.  [InsertWord] of the empty word changes no tree, and [Search] of
    the empty word answers [false] on every tree built by insertions, the
    empty word among them or not. *)
Theorem empty_word_is_never_stored (t : Tree) (ws : list gostring) :
  InsertWord t [] = t /\
  Search (InsertWords InitTree ws) [] = false.
Proof.
  split.
  - apply InsertWord_present; now rewrite find_empty_query.
  - unfold Search. rewrite find_empty_query. cbn [m_rest m_node IsWord].
    now rewrite InsertWords_root_flag.
Qed.

(* ------------------------------------------------------------------ *)
(** ** Search *)

(** X5.  [Search] answers [true] only for words that were inserted: never
    for a strict prefix, an extension or any other string. *)
Theorem Search_finds_only_inserted_words (ws : list gostring) (q : gostring) :
  Search (InsertWords InitTree ws) q = true -> In q ws.
Proof. apply Search_only_inserted. Qed.

Lemma Search_finds_only_inserted_words_witness :
  Search (InsertWords InitTree [lit "test"; lit "team"]) (lit "team") = true /\
  In (lit "team") [lit "test"; lit "team"].
Proof.
  split; [vm_compute; reflexivity|].
  apply (Search_finds_only_inserted_words [lit "test"; lit "team"] (lit "team")).
  vm_compute. reflexivity.
Defined.

(** X6.  A word that [Search] finds stays found through every later
    insertion. *)
Theorem Search_kept_by_later_insertions (ws ws' : list gostring) (q : gostring) :
  Search (InsertWords InitTree ws) q = true ->
  Search (InsertWords InitTree (ws ++ ws')) q = true.
Proof.
  intros H. rewrite InsertWords_app.
  apply Search_kept_InsertWords; [apply built_heads_distinct | exact H].
Qed.

Lemma Search_kept_by_later_insertions_witness :
  Search (InsertWords InitTree [lit "tester"]) (lit "tester") = true /\
  Search (InsertWords InitTree ([lit "tester"] ++ [lit "test"; lit "team"]))
         (lit "tester") = true.
Proof.
  split; [vm_compute; reflexivity|].
  apply (Search_kept_by_later_insertions [lit "tester"]
           [lit "test"; lit "team"] (lit "tester")).
  vm_compute. reflexivity.
Defined.

(** X7.  On every tree built by insertions, [Search] answers [true] for
    exactly the words that [Iter] yields. *)
Theorem Search_agrees_with_Iter (ws : list gostring) (q : gostring) :
  Search (InsertWords InitTree ws) q = true <->
  In q (Iter (InsertWords InitTree ws)).
Proof.
  split; [apply Search_Iter | apply Iter_Search, built_heads_distinct].
Qed.

(** X8.  After [InsertWord w] on a tree built from the words [ws], [Search w]
    answers [true] exactly when it already did, or [w] is not empty and no
    word of [ws] starts with [w]. *)
Theorem inserted_word_found_exactly_when (ws : list gostring) (w : gostring) :
  Search (InsertWord (InsertWords InitTree ws) w) w = true <->
  Search (InsertWords InitTree ws) w = true \/
  (w <> [] /\ forall x, In x ws -> ~ is_prefix w x).
Proof.
  rewrite (Search_InsertWord _ w w (built_heads_distinct ws)).
  rewrite <- adds_leaf_built. intuition.
Qed.

(** X9.  Inserted in an order in which no word is empty and no word is the
    beginning of a different earlier word, every inserted word is found. *)
Theorem words_found_when_no_prefix_comes_later (ws : list gostring) (w : gostring) :
  no_prefix_of_earlierb [] ws = true -> In w ws ->
  Search (InsertWords InitTree ws) w = true.
Proof.
  intros Hok Hw. apply no_prefix_of_earlier_found; [|exact Hw].
  intros pre x post E.
  destruct (no_prefix_of_earlierb_sound ws [] Hok pre x post E) as [Hx Hall].
  split; [exact Hx|]. intros y Hy. apply Hall. now right.
Qed.

Lemma words_found_when_no_prefix_comes_later_witness :
  no_prefix_of_earlierb [] [lit "team"; lit "test"; lit "tester"; lit "team"]
    = true /\
  In (lit "tester") [lit "team"; lit "test"; lit "tester"; lit "team"] /\
  Search (InsertWords InitTree
            [lit "team"; lit "test"; lit "tester"; lit "team"])
         (lit "tester") = true.
Proof.
  split; [vm_compute; reflexivity|].
  split; [simpl; auto|].
  apply (words_found_when_no_prefix_comes_later
           [lit "team"; lit "test"; lit "tester"; lit "team"] (lit "tester")).
  - vm_compute. reflexivity.
  - simpl. auto.
Defined.

(** X10.  Inserted in ascending bytewise order, as a sorted word list is,
    every word of a list without the empty word is found. *)
Theorem sorted_words_are_all_found (ws : list gostring) (w : gostring) :
  StronglySorted string_le ws -> ~ In [] ws -> In w ws ->
  Search (InsertWords InitTree ws) w = true.
Proof.
  intros Hs Hne Hw. apply no_prefix_of_earlier_found; [|exact Hw].
  now apply sorted_no_prefix_of_earlier.
Qed.

Lemma sorted_words_are_all_found_witness :
  StronglySorted string_le [lit "slow"; lit "slower"; lit "team"; lit "test"] /\
  ~ In [] [lit "slow"; lit "slower"; lit "team"; lit "test"] /\
  In (lit "slower") [lit "slow"; lit "slower"; lit "team"; lit "test"] /\
  Search (InsertWords InitTree
            [lit "slow"; lit "slower"; lit "team"; lit "test"])
         (lit "slower") = true.
Proof.
  assert (Hs : StronglySorted string_le
                 [lit "slow"; lit "slower"; lit "team"; lit "test"])
    by (repeat constructor; vm_compute; reflexivity).
  assert (Hne : ~ In [] [lit "slow"; lit "slower"; lit "team"; lit "test"])
    by (simpl; intros H; repeat (destruct H as [H|H]; [discriminate H|]);
        exact H).
  assert (Hin : In (lit "slower")
                   [lit "slow"; lit "slower"; lit "team"; lit "test"])
    by (simpl; auto).
  split; [exact Hs|]. split; [exact Hne|]. split; [exact Hin|].
  exact (sorted_words_are_all_found _ _ Hs Hne Hin).
Defined.

(* ------------------------------------------------------------------ *)
(** ** Traversal and suggestions *)

(** X11.  On every tree built by insertions, [Iter] yields no word twice,
    and neither does [GetSuggestions] for any query. *)
Theorem no_word_is_yielded_twice (ws : list gostring) (q : gostring) :
  NoDup (Iter (InsertWords InitTree ws)) /\
  NoDup (GetSuggestions (InsertWords InitTree ws) q).
Proof.
  split.
  - apply iter_NoDup, built_heads_distinct.
  - apply GetSuggestions_NoDup, built_heads_distinct.
Qed.

(** X12.  Unless the query ends inside the label of a node with children
    whose cached [Prefix] is not the path down to it, [GetSuggestions]
    returns the words [Iter] yields that start with the query, in the order
    in which [Iter] yields them. *)
Theorem GetSuggestions_exact_when_prefix_cached
  (ws : list gostring) (q : gostring) :
  (ends_inside_branch (InsertWords InitTree ws) q = true ->
   cached_prefix_right (InsertWords InitTree ws) q) ->
  GetSuggestions (InsertWords InitTree ws) q =
  filter (is_prefixb q) (Iter (InsertWords InitTree ws)).
Proof. apply GetSuggestions_filter, built_heads_distinct. Qed.

Lemma GetSuggestions_exact_when_prefix_cached_witness :
  (ends_inside_branch (InsertWords InitTree [lit "test"; lit "team"]) (lit "t")
     = true ->
   cached_prefix_right (InsertWords InitTree [lit "test"; lit "team"]) (lit "t"))
  /\
  GetSuggestions (InsertWords InitTree [lit "test"; lit "team"]) (lit "t") =
  filter (is_prefixb (lit "t"))
         (Iter (InsertWords InitTree [lit "test"; lit "team"])).
Proof.
  assert (H : ends_inside_branch (InsertWords InitTree [lit "test"; lit "team"])
                (lit "t") = true ->
              cached_prefix_right (InsertWords InitTree [lit "test"; lit "team"])
                (lit "t"))
    by (intros _; vm_compute; reflexivity).
  split; [exact H|].
  exact (GetSuggestions_exact_when_prefix_cached
           [lit "test"; lit "team"] (lit "t") H).
Defined.

(** X13.  A query that no inserted word starts with gets no suggestion. *)
Theorem GetSuggestions_empty_without_match (ws : list gostring) (q : gostring) :
  (forall x, In x ws -> ~ is_prefix q x) ->
  GetSuggestions (InsertWords InitTree ws) q = [].
Proof. apply GetSuggestions_none. Qed.

Lemma GetSuggestions_empty_without_match_witness :
  (forall x, In x [lit "water"; lit "test"] -> ~ is_prefix (lit "was") x) /\
  GetSuggestions (InsertWords InitTree [lit "water"; lit "test"]) (lit "was") = [].
Proof.
  assert (H : forall x, In x [lit "water"; lit "test"] ->
                        ~ is_prefix (lit "was") x).
  { intros x Hx Hp. apply is_prefixb_spec in Hp.
    simpl in Hx. destruct Hx as [<-|[<-|[]]]; vm_compute in Hp; discriminate. }
  split; [exact H|].
  exact (GetSuggestions_empty_without_match [lit "water"; lit "test"]
           (lit "was") H).
Defined.

(* ------------------------------------------------------------------ *)
(** ** Batches *)

(** X14.  For a batch of at least one query, every run of
    [GetSuggestionsForSlice] returns, whatever the order in which the
    goroutines complete and the map is visited, and all runs return the same
    list: ascending, without repetition, holding exactly the suggestions of
    the queries. *)
Theorem batch_result_is_schedule_independent
  (t : Tree) (Q : list gostring)
  (c1 c2 : list (list gostring)) (g1 g2 : stringset -> list gostring) :
  Q <> [] ->
  possible_run t Q c1 g1 -> possible_run t Q c2 g2 ->
  exists r,
    GetSuggestionsForSlice_run Q c1 g1 = Some r /\
    GetSuggestionsForSlice_run Q c2 g2 = Some r /\
    is_sorted_dedup_union t Q r.
Proof.
  intros HQ H1 H2.
  destruct (GetSuggestionsForSlice_run_union t Q c1 g1 HQ H1) as (r & E1 & U).
  exists r. split; [exact E1|]. split; [|exact U].
  rewrite <- E1. symmetry.
  now apply (GetSuggestionsForSlice_run_deterministic t Q).
Qed.

Lemma batch_result_is_schedule_independent_witness :
  exists r,
    GetSuggestionsForSlice_run [lit "te"; lit "s"]
      [GetSuggestions tree_test_team_te (lit "te");
       GetSuggestions tree_test_team_te (lit "s")]
      (fun m => m) = Some r /\
    GetSuggestionsForSlice_run [lit "te"; lit "s"]
      [GetSuggestions tree_test_team_te (lit "s");
       GetSuggestions tree_test_team_te (lit "te")]
      (@rev gostring) = Some r /\
    is_sorted_dedup_union tree_test_team_te [lit "te"; lit "s"] r.
Proof.
  apply (batch_result_is_schedule_independent tree_test_team_te
           [lit "te"; lit "s"]).
  - discriminate.
  - split; [apply Permutation_refl | intros m; apply Permutation_refl].
  - split; [apply perm_swap | intros m; apply Permutation_sym, Permutation_rev].
Defined.

(* ------------------------------------------------------------------ *)
(** ** Shape of the tree *)

(** X15.  In every tree built by insertions, a node without children, other
    than the root, is a word boundary: no branch ends without a word. *)
Theorem leaves_are_word_boundaries
  (ws : list gostring) (p : ptr) (n : Node) :
  deref (Root (InsertWords InitTree ws)) p = Some n ->
  p <> [] -> IsLeaf n = true -> IsWord n = true.
Proof.
  intros Hd Hp Hl.
  apply (deref_child leaf_marked p _ n (built_leaves_marked ws) Hd Hp).
  unfold IsLeaf, len in Hl. apply Z.eqb_eq in Hl.
  destruct (Children n); [reflexivity | simpl in Hl; lia].
Qed.

Lemma leaves_are_word_boundaries_witness :
  exists n,
    deref (Root (InsertWords InitTree [lit "tester"; lit "test"])) [O; O]
      = Some n /\
    [O; O] <> @nil nat /\ IsLeaf n = true /\ IsWord n = true.
Proof.
  eexists. split; [vm_compute; reflexivity|].
  split; [discriminate|]. split; [vm_compute; reflexivity|].
  apply (leaves_are_word_boundaries [lit "tester"; lit "test"] [O; O]).
  - vm_compute. reflexivity.
  - discriminate.
  - vm_compute. reflexivity.
Defined.

(** X16.  In every tree built by insertions, [IsRoot] answers [true] for the
    root and [false] for every other node, and the root is never a word
    boundary. *)
Theorem only_the_root_is_root
  (ws : list gostring) (p : ptr) (n : Node) :
  deref (Root (InsertWords InitTree ws)) p = Some n ->
  IsRoot n = (match p with [] => true | _ :: _ => false end) /\
  IsWord (Root (InsertWords InitTree ws)) = false.
Proof.
  intros Hd. split.
  - destruct p as [|i p].
    + simpl in Hd. inversion Hd; subst. unfold IsRoot.
      now rewrite InsertWords_root_mark.
    + apply (deref_child not_root (i :: p) _ n (built_not_root ws) Hd).
      discriminate.
  - unfold IsWord. now rewrite InsertWords_root_flag.
Qed.

Lemma only_the_root_is_root_witness :
  exists n,
    deref (Root (InsertWords InitTree [lit "test"; lit "team"])) [O; 1%nat]
      = Some n /\
    IsRoot n = false /\
    IsWord (Root (InsertWords InitTree [lit "test"; lit "team"])) = false.
Proof.
  eexists. split; [vm_compute; reflexivity|].
  apply (only_the_root_is_root [lit "test"; lit "team"] [O; 1%nat]).
  vm_compute. reflexivity.
Defined.

(* ------------------------------------------------------------------ *)
(** ** Loading from a dictionary *)

(** X17.  [InitTreeFromDict] returns no tree when the dictionary fails.
    Otherwise it returns a tree in which [Search] finds only words of the
    dictionary, and finds every one of them when no word is empty and none
    is the beginning of a different earlier word. *)
Theorem InitTreeFromDict_loads_the_dictionary
  {D : Type} `{Dictionary D} (dict : D) :
  match GetWords dict with
  | (_, Some e) => InitTreeFromDict dict = inl e
  | (words, None) =>
      exists t,
        InitTreeFromDict dict = inr t /\
        (forall q, Search t q = true -> In q words) /\
        (no_prefix_of_earlierb [] words = true ->
         forall w, In w words -> Search t w = true)
  end.
Proof.
  unfold InitTreeFromDict.
  destruct (GetWords dict) as [words [e|]]; [reflexivity|].
  exists (InsertWords InitTree words). split; [reflexivity|]. split.
  - intros q. apply Search_only_inserted.
  - intros Hok w Hw. apply no_prefix_of_earlier_found; [|exact Hw].
    intros pre x post E.
    destruct (no_prefix_of_earlierb_sound words [] Hok pre x post E)
      as [Hx Hall].
    split; [exact Hx|]. intros y Hy. apply Hall. now right.
Qed.

Lemma InitTreeFromDict_loads_the_dictionary_witness :
  InitTreeFromDict (Unreadable "no such file") = inl "no such file"%string /\
  exists t,
    InitTreeFromDict (Words [lit "team"; lit "test"]) = inr t /\
    (forall q, Search t q = true -> In q [lit "team"; lit "test"]) /\
    (no_prefix_of_earlierb [] [lit "team"; lit "test"] = true ->
     forall w, In w [lit "team"; lit "test"] -> Search t w = true).
Proof.
  split.
  - exact (InitTreeFromDict_loads_the_dictionary (Unreadable "no such file")).
  - exact (InitTreeFromDict_loads_the_dictionary
             (Words [lit "team"; lit "test"])).
Defined.

(* ------------------------------------------------------------------ *)
(** ** The prefix cache near the root *)

(** X18.  In every tree built by insertions, a child of the root that has
    children caches its own label as [Prefix], which is the whole path down
    to it. *)
Theorem first_level_nodes_cache_their_path
  (ws : list gostring) (i : nat) (c : Node) :
  nth_error (Children (Root (InsertWords InitTree ws))) i = Some c ->
  IsLeaf c = false ->
  Prefix c = Label c.
Proof.
  intros Hc Hl.
  pose proof (built_first_level ws) as H. unfold children_all in H.
  rewrite Forall_forall in H. apply (H c (nth_error_In _ _ Hc)).
  intros E. unfold IsLeaf in Hl. rewrite E in Hl. discriminate.
Qed.

Lemma first_level_nodes_cache_their_path_witness :
  exists c,
    nth_error (Children (Root (InsertWords InitTree
                 [lit "test"; lit "team"; lit "toast"]))) O = Some c /\
    IsLeaf c = false /\ Prefix c = Label c.
Proof.
  eexists. split; [vm_compute; reflexivity|].
  split; [vm_compute; reflexivity|].
  apply (first_level_nodes_cache_their_path
           [lit "test"; lit "team"; lit "toast"] O).
  - vm_compute. reflexivity.
  - vm_compute. reflexivity.
Defined.

(** X19.  When the matcher ends on the root or on a child of the root,
    [GetSuggestions] returns the words [Iter] yields that start with the
    query, in [Iter]'s order. *)
Theorem GetSuggestions_exact_near_the_root
  (ws : list gostring) (q : gostring) :
  (List.length
     (m_ptr (findMatchedNodeMeta q [] (Root (InsertWords InitTree ws))))
   <= 1)%nat ->
  GetSuggestions (InsertWords InitTree ws) q =
  filter (is_prefixb q) (Iter (InsertWords InitTree ws)).
Proof.
  intros Hlen. apply GetSuggestions_filter; [apply built_heads_distinct|].
  now apply first_level_cached_right.
Qed.

Lemma GetSuggestions_exact_near_the_root_witness :
  (List.length
     (m_ptr (findMatchedNodeMeta (lit "te") []
               (Root (InsertWords InitTree
                        [lit "tester"; lit "test"; lit "team"]))))
   <= 1)%nat /\
  GetSuggestions (InsertWords InitTree [lit "tester"; lit "test"; lit "team"])
                 (lit "te") =
  filter (is_prefixb (lit "te"))
         (Iter (InsertWords InitTree [lit "tester"; lit "test"; lit "team"])).
Proof.
  assert (H : (List.length
                 (m_ptr (findMatchedNodeMeta (lit "te") []
                           (Root (InsertWords InitTree
                                    [lit "tester"; lit "test"; lit "team"]))))
               <= 1)%nat) by (vm_compute; lia).
  split; [exact H|].
  exact (GetSuggestions_exact_near_the_root
           [lit "tester"; lit "test"; lit "team"] (lit "te") H).
Defined.

(* ------------------------------------------------------------------ *)
(** ** Size and order *)

(** X20.  The labels of a tree built by insertions hold together no more
    bytes than the inserted words. *)
Theorem labels_hold_no_more_than_the_words (ws : list gostring) :
  (label_bytes (Root (InsertWords InitTree ws))
   <= list_sum (map (@List.length ascii) ws))%nat.
Proof.
  assert (H : forall t,
            (label_bytes (Root (InsertWords t ws))
             <= label_bytes (Root t) + list_sum (map (@List.length ascii) ws))%nat).
  { induction ws as [|w ws IH]; intros t; simpl; [lia|].
    specialize (IH (InsertWord t w)).
    pose proof (InsertWord_label_bytes t w).
    change (fold_left InsertWord ws (InsertWord t w))
      with (InsertWords (InsertWord t w) ws).
    lia. }
  apply (H InitTree).
Qed.

(** X21.  [InsertWord] keeps the words [Iter] yields and their order, and
    adds at most the inserted word, on any tree. *)
Theorem InsertWord_keeps_Iter_order (t : Tree) (w : gostring) :
  exists A B,
    Iter t = A ++ B /\
    (Iter (InsertWord t w) = A ++ B \/ Iter (InsertWord t w) = A ++ [w] ++ B).
Proof.
  destruct (Iter_InsertWord_order t w) as (A & B & E & E').
  exists A, B. split; [exact E|].
  destruct (adds_leaf t w); [right | left]; exact E'.
Qed.

(** X22.  A word that [Search] finds is the first suggestion for itself, on
    any tree. *)
Theorem found_word_is_its_first_suggestion (t : Tree) (q : gostring) :
  Search t q = true -> exists r, GetSuggestions t q = q :: r.
Proof.
  unfold Search. intros H. apply andb_prop in H. destruct H as [Hr Hw].
  pose proof (find_Walk (Root t) q []) as HW.
  pose proof (Walk_word _ _ _ _ HW) as Hword. simpl in Hword.
  assert (Hrest : m_rest (findMatchedNodeMeta q [] (Root t)) = []).
  { apply Z.eqb_eq in Hr. unfold len in Hr.
    destruct (m_rest _); [reflexivity | simpl in Hr; lia]. }
  assert (Hidx : m_idx (findMatchedNodeMeta q [] (Root t)) = -1).
  { destruct (Walk_outcome _ _ _ _ HW) as [[Hi _]|(_ & _ & Hk)]; [exact Hi|].
    rewrite Hrest, runner_nil_l in Hk. lia. }
  destruct (GetSuggestions_cases t q)
    as [(_ & _ & _ & ->) | [(_ & Hr' & _) | [(Hi & _) | [(Hi & _) | (Hi & _)]]]];
    try congruence.
  rewrite iter_unfold, Hw. rewrite Hrest, app_nil_r in Hword.
  rewrite <- Hword. simpl. eauto.
Qed.

Lemma found_word_is_its_first_suggestion_witness :
  Search tree_test_team_te (lit "test") = true /\
  exists r, GetSuggestions tree_test_team_te (lit "test") = lit "test" :: r.
Proof.
  split; [vm_compute; reflexivity|].
  apply (found_word_is_its_first_suggestion tree_test_team_te (lit "test")).
  vm_compute. reflexivity.
Defined.

(** X23.  On a tree built by insertions, [InsertWord w] changes the answer
    of [Search] for no word other than [w]. *)
Theorem InsertWord_leaves_other_answers (ws : list gostring) (w q : gostring) :
  q <> w ->
  Search (InsertWord (InsertWords InitTree ws) w) q =
  Search (InsertWords InitTree ws) q.
Proof.
  intros Hq.
  pose proof (Search_InsertWord _ w q (built_heads_distinct ws)) as H.
  destruct (Search (InsertWord (InsertWords InitTree ws) w) q),
           (Search (InsertWords InitTree ws) q); try reflexivity.
  - destruct (proj1 H eq_refl) as [E|[E _]]; [discriminate | contradiction].
  - apply (proj2 H). now left.
Qed.

Lemma InsertWord_leaves_other_answers_witness :
  lit "tester" <> lit "test" /\
  Search (InsertWord (InsertWords InitTree [lit "tester"]) (lit "test"))
         (lit "tester") =
  Search (InsertWords InitTree [lit "tester"]) (lit "tester").
Proof.
  assert (H : lit "tester" <> lit "test") by discriminate.
  split; [exact H|].
  exact (InsertWord_leaves_other_answers [lit "tester"] (lit "test")
           (lit "tester") H).
Defined.
